(** * Constant-depth matchgate circuits: ansatz construction and retry loop

    A shallow embedding of the notebook
    [Constant_Depth_w_QSearch_XY_Demo.ipynb]: the functions [make_matchgate],
    [make_layertype1], [make_layertype2] and [make_MGC] that build the
    constant-depth circuit structure, and the per-time-step synthesis loop
    that fits its parameters with the QSearch multi-start solver. *)

From Stdlib Require Import List ZArith Lia Bool String Arith.
From Stdlib Require Import Floats.
From Stdlib Require Import Reals Lra.
From Stdlib Require Import Ascii.
Import ListNotations.

Set Implicit Arguments.

(** ** Python results

    The builders read local variables that a loop may have left unbound;
    Python then raises [UnboundLocalError].  A call into a library may
    raise an error of its own.  Fallible code returns a [result]. *)

Inductive exn : Type :=
| UnboundLocalError (name : string)
| LibraryError (what : string).

Inductive result (A : Type) : Type :=
| Ok (a : A)
| Raise (e : exn).

Arguments Ok {A} a.
Arguments Raise {A} e.

Definition bind {A B : Type} (r : result A) (k : A -> result B) : result B :=
  match r with
  | Ok a => k a
  | Raise e => Raise e
  end.

Notation "x <- r ;; k" := (bind r (fun x => k))
  (at level 61, r at next level, right associativity).

(** A local variable is [None] until its first assignment. *)
Definition read_local {A : Type} (name : string) (v : option A) : result A :=
  match v with
  | Some a => Ok a
  | None => Raise (UnboundLocalError name)
  end.

(** [for i in range(count)] with the loop state threaded through the body;
    [for_loop body start count] runs [i = start, ..., start + count - 1]. *)
Fixpoint for_loop {St : Type} (body : nat -> St -> result St)
         (start count : nat) (s : St) : result St :=
  match count with
  | O => Ok s
  | S c => s' <- body start s ;; for_loop body (S start) c s'
  end.

Definition for_range {St : Type} (count : Z) (body : nat -> St -> result St)
  (s : St) : result St :=
  for_loop body 0 (Z.to_nat count) s.

(** ** Gate trees *)

(** Modelled from the spec: the gate classes of the QSearch library
    ([ZGate], [XGate], [CNOTGate], [IdentityGate], [KroneckerGate],
    [ProductGate]) that the notebook imports; section 3 of the
    specification gives them as leaves (identity, X rotation, Z rotation,
    controlled-not), a parallel composition and a sequential composition.
    Both compositions take any number of sub-gates. *)
#[warnings="-register-all"]
Inductive gate : Type :=
| ZGate
| XGate
| CNOTGate
| IdentityGate
| KroneckerGate (subgates : list gate)
| ProductGate (subgates : list gate).

(** Modelled from the spec: the number of real parameters of a gate.  A
    rotation leaf carries exactly one parameter slot, identity and
    controlled-not carry none, and a composition carries those of its
    children. *)
Fixpoint num_inputs (g : gate) : nat :=
  match g with
  | ZGate => 1
  | XGate => 1
  | CNOTGate => 0
  | IdentityGate => 0
  | KroneckerGate gs => list_sum (map num_inputs gs)
  | ProductGate gs => list_sum (map num_inputs gs)
  end.

(** Modelled from the spec: the qubit count of a gate.  A parallel
    composition acts on the sum of its children's qubits; the children of a
    sequential composition all act on the same qubits, so it has the qubit
    count of its first child (0 stands for the empty sequence, which the
    notebook never builds). *)
Fixpoint qudits (g : gate) : nat :=
  match g with
  | ZGate => 1
  | XGate => 1
  | CNOTGate => 2
  | IdentityGate => 1
  | KroneckerGate gs => list_sum (map qudits gs)
  | ProductGate gs =>
      match gs with
      | [] => 0
      | g0 :: _ => qudits g0
      end
  end.

(** Structural equality of gate trees. *)
Fixpoint gate_eqb (g h : gate) : bool :=
  let fix all2 (gs hs : list gate) : bool :=
    match gs, hs with
    | [], [] => true
    | g1 :: gs', h1 :: hs' => gate_eqb g1 h1 && all2 gs' hs'
    | _, _ => false
    end in
  match g, h with
  | ZGate, ZGate => true
  | XGate, XGate => true
  | CNOTGate, CNOTGate => true
  | IdentityGate, IdentityGate => true
  | KroneckerGate gs, KroneckerGate hs => all2 gs hs
  | ProductGate gs, ProductGate hs => all2 gs hs
  | _, _ => false
  end.

(** ** The circuit builders of the notebook *)

Definition make_matchgate : gate :=
  let rz := ZGate in
  let rx := XGate in
  let cnot := CNOTGate in
  let RZ_layer := KroneckerGate [rz; rz] in
  let RX_layer := KroneckerGate [rx; rx] in
  let RXRZ_layer := KroneckerGate [rx; rz] in
  let matchgate :=
    ProductGate [RZ_layer; RX_layer; cnot; RXRZ_layer; cnot; RX_layer; RZ_layer] in
  matchgate.

(** [int(N/2)]: true division followed by truncation toward zero (exact
    as long as [N] is a binary64 value, which every qubit count is). *)
Definition int_half (N : Z) : Z := Z.quot N 2.

(** The body of the loop of [make_layertype1], at index [i]. *)
Definition make_layertype1_body (i : nat) (layer : option gate)
  : result (option gate) :=
  if Nat.eqb i 0 then
    Ok (Some make_matchgate)
  else
    l <- read_local "layer" layer ;;
    Ok (Some (KroneckerGate [l; make_matchgate])).

Definition make_layertype1 (N : Z) : result gate :=
  let I := IdentityGate in
  layer <- for_range (int_half N) make_layertype1_body None ;;
  layer <- (if negb (Z.eqb (N mod 2) 0) then
              l <- read_local "layer" layer ;;
              Ok (Some (KroneckerGate [l; I]))
            else Ok layer) ;;
  read_local "layer" layer.

Definition make_layertype2 (N : Z) : result gate :=
  let I := IdentityGate in
  let layer := I in
  if Z.eqb (N mod 2) 0 then
    layer <- for_range (int_half N - 1)
               (fun _ layer => Ok (KroneckerGate [layer; make_matchgate]))
               layer ;;
    let layer := KroneckerGate [layer; I] in
    Ok layer
  else
    layer <- for_range (int_half N)
               (fun _ layer => Ok (KroneckerGate [layer; make_matchgate]))
               layer ;;
    Ok layer.

(** The body of the loop of [make_MGC], at layer index [l], over the two
    layer builders it calls. *)
Definition make_MGC_body (layertype1 layertype2 : Z -> result gate) (N : Z)
           (l : nat) (circuit : option gate) : result (option gate) :=
  if Nat.eqb (l mod 2) 0 then
    if Nat.eqb l 0 then
      g <- layertype2 N ;;
      Ok (Some g)
    else
      c <- read_local "circuit" circuit ;;
      g <- layertype2 N ;;
      Ok (Some (ProductGate [c; g]))
  else
    c <- read_local "circuit" circuit ;;
    g <- layertype1 N ;;
    Ok (Some (ProductGate [c; g])).

Definition make_MGC_loop (layertype1 layertype2 : Z -> result gate) (N : Z)
  : result gate :=
  circuit <- for_range N (make_MGC_body layertype1 layertype2 N) None ;;
  read_local "circuit" circuit.

Definition make_MGC (N : Z) : result gate :=
  make_MGC_loop make_layertype1 make_layertype2 N.

(** ** The synthesis loop of the notebook

    One synthesis call is the body of the loop over time steps: it builds
    the circuit structure, then calls the QSearch solver up to five times
    and keeps the smallest distance it has seen.  The solver and the
    distance function belong to the QSearch library: they are parameters of
    the model.  Either may raise, and the solver runs in an ambient state
    (the random generator of NumPy and the solver's worker pool) that the
    notebook neither seeds nor passes. *)

Section SynthesisModel.

Variables Matrix Params World : Type.

(** [opts = qsearch.Options(); opts.target = target_unitary]; the other
    options are the library's defaults. *)
Record Options : Type := { opt_target : Matrix }.

(** [multistart_solvers.MultiStart_Solver(num_starts)] followed by
    [.solve_for_unitary(circ_struct, opts)]. *)
Variable MultiStart_Solver :
  Z -> gate -> Options -> World -> result (Matrix * Params) * World.

(** [utils.matrix_distance_squared]. *)
Variable matrix_distance_squared : Matrix -> Matrix -> result float.

(** What the notebook can observe of the outside: the ambient state, and
    the solver invocations made so far (oldest first). *)
Record env : Type := {
  ambient : World;
  solver_log : list (gate * Matrix)
}.

Definition call_solver (num_starts : Z) (circ_struct : gate) (opts : Options)
           (e : env) : result (Matrix * Params) * env :=
  let (r, w) := MultiStart_Solver num_starts circ_struct opts (ambient e) in
  (r, {| ambient := w;
         solver_log := solver_log e ++ [(circ_struct, opt_target opts)] |}).

(** One completed attempt: what the solver returned, its distance to the
    target, and the value of [dist] once the attempt has been accounted
    for. *)
Record attempt : Type := {
  a_mat : Matrix;
  a_vec : Params;
  a_dist_new : float;
  a_dist : float
}.

(** The variables of the retry loop: [dist], and [mat] and [vec], which
    are unbound until the first attempt assigns them.  [attempts] is a
    history the notebook does not keep: the completed attempts, oldest
    first. *)
Record loop_state : Type := {
  dist : float;
  mat : option Matrix;
  vec : option Params;
  attempts : list attempt
}.

(** The literal [1e-10], as the nearest binary64 value. *)
Definition tolerance : float := 0x1.b7cdfd9d7bdbbp-34%float.

(** How a block of code ended.  The variables of a notebook are globals:
    they keep their values when an exception ends the cell. *)
Inductive completion : Type :=
| Normal
| Raised (x : exn).

(** [mat, vec = ...]: the unpacking of the solver's answer. *)
Definition assign_answer (st : loop_state) (m : Matrix) (v : Params)
  : loop_state :=
  {| dist := dist st; mat := Some m; vec := Some v;
     attempts := attempts st |}.

(** [if dist_new < dist: dist = dist_new], after which the attempt is
    complete and enters the history. *)
Definition account (st : loop_state) (m : Matrix) (v : Params)
           (dist_new : float) : loop_state :=
  let d := if (dist_new <? dist st)%float then dist_new else dist st in
  {| dist := d; mat := Some m; vec := Some v;
     attempts := attempts st ++
                 [{| a_mat := m; a_vec := v;
                     a_dist_new := dist_new; a_dist := d |}] |}.

(** [for _ in range(n)]: the retry loop with [n] iterations left. *)
Fixpoint retry_loop (circ_struct : gate) (opts : Options)
         (target_unitary : Matrix) (n : nat) (st : loop_state) (e : env)
  : completion * loop_state * env :=
  match n with
  | O => (Normal, st, e)
  | S n' =>
      let (r, e1) := call_solver 24 circ_struct opts e in
      match r with
      | Raise x => (Raised x, st, e1)
      | Ok (m, v) =>
          match matrix_distance_squared m target_unitary with
          | Raise x => (Raised x, assign_answer st m v, e1)
          | Ok dist_new =>
              let st' := account st m v dist_new in
              if (dist st' <? tolerance)%float then (Normal, st', e1)
              else retry_loop circ_struct opts target_unitary n' st' e1
          end
      end
  end.

(** The tracked distance is a number, it bounds the recorded values from
    below, and the recorded values never increase. *)
Definition tracked (st : loop_state) : Prop :=
  (dist st <=? dist st)%float = true /\
  (dist st <=? 1)%float = true /\
  (forall a, In a (attempts st) ->
             (dist st <=? a_dist a)%float = true /\
             (a_dist a <=? 1)%float = true) /\
  (forall i j a b, i <= j ->
                   nth_error (attempts st) i = Some a ->
                   nth_error (attempts st) j = Some b ->
                   (a_dist b <=? a_dist a)%float = true).

(** The state in which the retry loop starts: [dist = 1]. *)
Definition initial_state : loop_state :=
  {| dist := 1%float; mat := None; vec := None; attempts := [] |}.

(** What a time step hands to the assembler ([result_dict]), with the
    distance it prints and the loop state it ended in. *)
Record synthesis : Type := {
  structure : gate;
  parameters : Params;
  reported : float;
  final : loop_state
}.

(** The body of the loop over time steps, from the target unitary on. *)
Definition synthesize (N : Z) (target_unitary : Matrix) (e : env)
  : result synthesis * env :=
  match make_MGC N with
  | Raise x => (Raise x, e)
  | Ok circ_struct =>
      let opts := {| opt_target := target_unitary |} in
      match retry_loop circ_struct opts target_unitary 5 initial_state e with
      | (Raised x, _, e') => (Raise x, e')
      | (Normal, st, e') =>
          match read_local "vec" (vec st) with
          | Raise x => (Raise x, e')
          | Ok v =>
              (Ok {| structure := circ_struct; parameters := v;
                     reported := dist st; final := st |}, e')
          end
      end
  end.

(** The loop over time steps, one target per step. *)
Fixpoint run_timesteps (N : Z) (targets : list Matrix) (e : env)
  : result (list synthesis) * env :=
  match targets with
  | [] => (Ok [], e)
  | target_unitary :: rest =>
      let (r, e1) := synthesize N target_unitary e in
      match r with
      | Raise x => (Raise x, e1)
      | Ok s =>
          let (rs, e2) := run_timesteps N rest e1 in
          (match rs with
           | Raise x => Raise x
           | Ok l => Ok (s :: l)
           end, e2)
      end
  end.

(** The answers of [n] successive solver calls from the ambient state
    [w]. *)
Fixpoint answers (circ_struct : gate) (opts : Options) (n : nat) (w : World)
  : list (result (Matrix * Params)) :=
  match n with
  | O => []
  | S n' =>
      let (r, w') := MultiStart_Solver 24 circ_struct opts w in
      r :: answers circ_struct opts n' w'
  end.

End SynthesisModel.

(** ** A scripted solver

    Concrete stand-ins for the two library functions, to run the loop on:
    matrices are rows of real entries, the ambient state is the number of
    solver calls made so far, the solver returns the entries of a script in
    turn, and the distance is the gap between the top-left entries. *)

Definition rows : Type := list (list float).

Definition is_square (m : rows) : bool :=
  forallb (fun row => Nat.eqb (List.length row) (List.length m)) m.

Definition top_left (m : rows) : float :=
  nth 0 (nth 0 m []) nan.

Definition scripted_solver (script : nat -> rows * list float)
           (num_starts : Z) (circ_struct : gate) (opts : Options rows)
           (calls : nat) : result (rows * list float) * nat :=
  (Ok (script calls), S calls).

(** A solver that rejects every call. *)
Definition rejecting_solver (num_starts : Z) (circ_struct : gate)
           (opts : Options rows) (calls : nat)
  : result (rows * list float) * nat :=
  (Raise (LibraryError "solve_for_unitary"), S calls).

Definition gap_distance (m target : rows) : result float :=
  Ok (abs (top_left target - top_left m))%float.

(** The k-th answer of the script made from [tops]: the one-by-one matrix
    holding the k-th entry of [tops], found with that entry as its only
    parameter. *)
Definition script_of (tops : list float) (k : nat) : rows * list float :=
  let x := nth k tops nan in ([[x]], [x]).

Definition fresh_env (calls : nat) : env rows nat :=
  {| ambient := calls; solver_log := [] |}.

(** A one-by-two target, and the one-by-one target holding 1. *)
Definition malformed_target : rows := [[1; 0]]%float.

Definition unit_target : rows := [[1]]%float.

(** A script that converges at once, one that never does and whose first
    answer is its best, and one that repeats itself every five answers. *)
Definition converging_script : list float :=
  [1; 0.75; 0.75; 0.75; 0.75; 0.75]%float.

Definition stalling_script : list float :=
  [0.75; 0.5; 0.5; 0.5; 0.5]%float.

Definition periodic_script : list float :=
  [0.75; 0.5; 0.5; 0.5; 0.5; 0.75; 0.5; 0.5; 0.5; 0.5]%float.

(** ** Reading circuits *)

(** The number of matchgate primitives in a gate tree. *)
Fixpoint primitives (g : gate) : nat :=
  if gate_eqb g make_matchgate then 1
  else match g with
       | KroneckerGate gs => list_sum (map primitives gs)
       | ProductGate gs => list_sum (map primitives gs)
       | _ => 0
       end.

(** The layers of a circuit grown by [ProductGate(circuit, layer)]:
    [layers_of k circuit] peels [k] layers off the right and returns all
    [k + 1] layers in time order. *)
Fixpoint layers_of (k : nat) (circuit : gate) : option (list gate) :=
  match k with
  | O => Some [circuit]
  | S k' =>
      match circuit with
      | ProductGate [c; g] => option_map (fun ls => ls ++ [g]) (layers_of k' c)
      | _ => None
      end
  end.

(** [layer] extended [k] times by [KroneckerGate(layer, make_matchgate())]. *)
Definition kron_chain (k : nat) (layer : gate) : gate :=
  Nat.iter k (fun l => KroneckerGate [l; make_matchgate]) layer.

(** The builder that [make_MGC(N)] calls for its layer of index [l]. *)
Definition layer_at (N : Z) (l : nat) : result gate :=
  if Nat.eqb (l mod 2) 0 then make_layertype2 N else make_layertype1 N.

(** The layer of index [l] when the two builders returned [g1] and [g2]. *)
Definition pick_layer (g1 g2 : gate) (l : nat) : gate :=
  if Nat.eqb (l mod 2) 0 then g2 else g1.

(** ** Evaluating a circuit

    Complex numbers are pairs of reals, and a matrix is a function from a
    row and a column index to an entry; a [d]-by-[d] matrix is zero outside
    its first [d] rows and columns. *)

Definition C : Type := (R * R)%type.

Definition C0 : C := (0%R, 0%R).

Definition C1 : C := (1%R, 0%R).

Definition Cplus (x y : C) : C :=
  (fst x + fst y, snd x + snd y)%R.

Definition Cmult (x y : C) : C :=
  (fst x * fst y - snd x * snd y, fst x * snd y + snd x * fst y)%R.

Definition Cconj (x : C) : C := (fst x, - snd x)%R.

Definition matrix : Type := nat -> nat -> C.

(** The sum of [f 0], ..., [f (n - 1)]. *)
Fixpoint Csum (f : nat -> C) (n : nat) : C :=
  match n with
  | O => C0
  | S n' => Cplus (Csum f n') (f n')
  end.

Definition identity (d : nat) : matrix :=
  fun i j => if Nat.eqb i j && Nat.ltb i d then C1 else C0.

(** The product of two [d]-by-[d] matrices. *)
Definition Mmult (d : nat) (A B : matrix) : matrix :=
  fun i j => Csum (fun k => Cmult (A i k) (B k j)) d.

(** The Kronecker product of [A] with an [n]-by-[n] matrix [B]. *)
Definition kron (n : nat) (A B : matrix) : matrix :=
  fun i j => Cmult (A (i / n) (j / n)) (B (i mod n) (j mod n)).

(** The conjugate transpose. *)
Definition adjoint (A : matrix) : matrix :=
  fun i j => Cconj (A j i).

(** Equality of the entries of two [d]-by-[d] matrices. *)
Definition mat_equiv (d : nat) (A B : matrix) : Prop :=
  forall i j, i < d -> j < d -> A i j = B i j.

Definition shaped (d : nat) (A : matrix) : Prop :=
  forall i j, d <= i \/ d <= j -> A i j = C0.

(** [U] is a unitary [d]-by-[d] matrix: its conjugate transpose is its
    inverse. *)
Definition unitary (d : nat) (U : matrix) : Prop :=
  shaped d U /\
  mat_equiv d (Mmult d (adjoint U) U) (identity d) /\
  mat_equiv d (Mmult d U (adjoint U)) (identity d).

(** The two-by-two matrix with rows [a b] and [c d]. *)
Definition entries2 (a b c d : C) : matrix :=
  fun i j =>
    match i, j with
    | 0, 0 => a
    | 0, 1 => b
    | 1, 0 => c
    | 1, 1 => d
    | _, _ => C0
    end.

(** The standard rotations about the X and the Z axis, and the
    controlled-not with its control on the first qubit. *)
Definition rot_x (theta : R) : matrix :=
  entries2 (cos (theta / 2), 0%R) (0%R, (- sin (theta / 2))%R)
           (0%R, (- sin (theta / 2))%R) (cos (theta / 2), 0%R).

Definition rot_z (theta : R) : matrix :=
  entries2 (cos (theta / 2), (- sin (theta / 2))%R) C0
           C0 (cos (theta / 2), sin (theta / 2)).

Definition cnot : matrix :=
  fun i j =>
    match i, j with
    | 0, 0 => C1
    | 1, 1 => C1
    | 2, 3 => C1
    | 3, 2 => C1
    | _, _ => C0
    end.

Section Compositions.

Variable evaluate : gate -> list R -> matrix.

(** The Kronecker product of the sub-gates' matrices, each sub-gate taking
    its own parameters off the front of the vector. *)
Fixpoint tensor_all (gs : list gate) (v : list R) : matrix :=
  match gs with
  | [] => identity 1
  | g :: rest =>
      kron (2 ^ list_sum (map qudits rest))
           (evaluate g (firstn (num_inputs g) v))
           (tensor_all rest (skipn (num_inputs g) v))
  end.

(** The product of the sub-gates' [d]-by-[d] matrices in time order: the
    matrix of a later sub-gate multiplies from the left. *)
Fixpoint product_all (d : nat) (gs : list gate) (v : list R) : matrix :=
  match gs with
  | [] => identity d
  | g :: rest =>
      Mmult d (product_all d rest (skipn (num_inputs g) v))
              (evaluate g (firstn (num_inputs g) v))
  end.

End Compositions.

(** Modelled from the spec: the evaluator of the QSearch library (the
    [matrix] method of its gates), which the notebook reaches through the
    solver only.  Section 4.3 of the specification: a leaf returns its
    fixed matrix, a rotation leaf with the next unconsumed parameter as its
    angle; a parallel composition returns the Kronecker product of its
    children's matrices; a sequential composition returns their matrix
    product in time order.  The parameters are consumed depth first, left
    to right. *)
Fixpoint evaluate (g : gate) (v : list R) : matrix :=
  match g with
  | ZGate => rot_z (nth 0 v 0%R)
  | XGate => rot_x (nth 0 v 0%R)
  | CNOTGate => cnot
  | IdentityGate => identity 2
  | KroneckerGate gs => tensor_all evaluate gs v
  | ProductGate gs => product_all evaluate (2 ^ qudits g) gs v
  end.

(** The children of a parallel composition are well formed; those of a
    sequential composition are and act on the same number of qubits. *)
Fixpoint well_formed (g : gate) : bool :=
  match g with
  | KroneckerGate gs => forallb well_formed gs
  | ProductGate gs =>
      forallb well_formed gs &&
      forallb (fun h => Nat.eqb (qudits h) (qudits g)) gs
  | _ => true
  end.


(** ** Counting gates *)

(** The number of controlled-not leaves of a gate tree. *)
Fixpoint cnot_count (g : gate) : nat :=
  match g with
  | CNOTGate => 1
  | KroneckerGate gs => list_sum (map cnot_count gs)
  | ProductGate gs => list_sum (map cnot_count gs)
  | _ => 0
  end.

(** ** The reference circuits

    A Qiskit circuit is built by method calls that each append one
    instruction; a circuit is the list of the instructions appended so far,
    and its length is what [len] returns. *)

Module qk.

(** The instructions the reference circuits are made of. *)
Inductive instruction : Type :=
| h (q : nat)
| cx (control target : nat)
| rz (theta : float) (q : nat)
| rx (theta : float) (q : nat).

(** The qubits an instruction acts on. *)
Definition qubits (i : instruction) : list nat :=
  match i with
  | h q => [q]
  | cx c t => [c; t]
  | rz _ q => [q]
  | rx _ q => [q]
  end.

Definition is_cx (i : instruction) : bool :=
  match i with
  | cx _ _ => true
  | _ => false
  end.

End qk.

Definition QuantumCircuit : Type := list qk.instruction.

(** [for i in range(count)] over a state that the body updates. *)
Definition range_loop {St : Type} (count : Z) (body : nat -> St -> St)
  (s : St) : St :=
  fold_left (fun s i => body i s) (seq 0 (Z.to_nat count)) s.

(** [np.pi]. *)
Definition np_pi : float := 0x1.921fb54442d18p+1%float.

(** [hbar = 0.658212], as the nearest binary64 value. *)
Definition hbar : float := 0x1.510129cbab64ap-1%float.

(** The conversion of a loop index to a float, rounded to nearest (a loop
    index stays far below the range where Python's conversion fails). *)
Definition float_of_index (n : nat) : float :=
  SF2Prim (binary_normalize prec emax (Z.of_nat n) 0 false).

(** The body of the loops that implement the XX operator, at qubit [q]. *)
Definition xx_operator (psiX : float) (q : nat) (time_evol_circuit : QuantumCircuit)
  : QuantumCircuit :=
  time_evol_circuit ++
  [qk.h q; qk.h (q + 1); qk.cx q (q + 1); qk.rz psiX (q + 1);
   qk.cx q (q + 1); qk.h q; qk.h (q + 1)].

(** The body of the loop that implements the YY operator, at qubit [q]. *)
Definition yy_operator (psiY : float) (q : nat) (time_evol_circuit : QuantumCircuit)
  : QuantumCircuit :=
  time_evol_circuit ++
  [qk.rx (- np_pi / 2) q; qk.rx (- np_pi / 2) (q + 1); qk.cx q (q + 1);
   qk.rz psiY (q + 1); qk.cx q (q + 1);
   qk.rx (np_pi / 2) q; qk.rx (np_pi / 2) (q + 1)]%float.

Definition evolution_circuit_XY (num_time_steps : Z) (Jx Jy delta_t : float)
           (N : Z) : QuantumCircuit :=
  let time_evol_circuit : QuantumCircuit := [] in
  let psiX := (-2 * Jx * delta_t / hbar)%float in
  let psiY := (-2 * Jy * delta_t / hbar)%float in
  range_loop num_time_steps
    (fun step time_evol_circuit =>
       let time_evol_circuit :=
         range_loop (N - 1) (xx_operator psiX) time_evol_circuit in
       range_loop (N - 1) (yy_operator psiY) time_evol_circuit)
    time_evol_circuit.

Section TransverseField.

(** [np.cos]. *)
Variable np_cos : float -> float.

(** The angle [psiZ] of time step [step]. *)
Definition tfim_psiZ (hz freq delta_t : float) (step : nat) : float :=
  let t := ((float_of_index step + 0.5) * delta_t)%float in
  (-2 * hz * np_cos (2 * np_pi * freq * t) * delta_t / hbar)%float.

(** One time step of [evolution_circuit_TFIM]. *)
Definition tfim_step (psiX hz freq delta_t : float) (N : Z) (step : nat)
           (time_evol_circuit : QuantumCircuit) : QuantumCircuit :=
  let psiZ := tfim_psiZ hz freq delta_t step in
  let time_evol_circuit :=
    range_loop (N - 1) (xx_operator psiX) time_evol_circuit in
  range_loop N (fun q c => c ++ [qk.rz psiZ q]) time_evol_circuit.

Definition evolution_circuit_TFIM (num_time_steps : Z)
           (Jx hz freq delta_t : float) (N : Z) : QuantumCircuit :=
  let time_evol_circuit : QuantumCircuit := [] in
  let psiX := (-2 * Jx * delta_t / hbar)%float in
  range_loop num_time_steps (tfim_step psiX hz freq delta_t N)
             time_evol_circuit.

End TransverseField.

(** [circuits]: the reference circuits of the time steps 0 to
    [num_steps]. *)
Definition circuits (num_steps : Z) (Jx Jy delta_t : float) (N : Z)
  : list QuantumCircuit :=
  range_loop (num_steps + 1)
    (fun i circuits =>
       circuits ++ [evolution_circuit_XY (Z.of_nat i) Jx Jy delta_t N])
    [].

(** ** Post-processing of the counts

    The two magnetization functions compute with Python's numbers: the
    accumulator starts as the integer 0 and becomes a float with the first
    addition, and mixing an integer with a float converts the integer.  The
    strings are ASCII, and the result dictionary is the list of its items in
    iteration order. *)

Inductive builtin_error : Type :=
| ZeroDivisionError
| ValueError
| OverflowError.

Inductive computed (A : Type) : Type :=
| Value (a : A)
| Error (e : builtin_error).

Arguments Value {A} a.
Arguments Error {A} e.

Definition and_then {A B : Type} (c : computed A) (k : A -> computed B)
  : computed B :=
  match c with
  | Value a => k a
  | Error e => Error e
  end.

(** The conversion of an integer to a float: rounded to nearest, and an
    [OverflowError] when the integer is beyond the range of the floats. *)
Definition float_of_int (z : Z) : computed float :=
  match binary_normalize prec emax z 0 false with
  | S754_infinity _ => Error OverflowError
  | f => Value (SF2Prim f)
  end.

(** [float(s)] for a string [s] of one character: a decimal digit, or a
    [ValueError]. *)
Definition float_of_char (s : ascii) : computed float :=
  match s with
  | "0"%char => Value 0%float
  | "1"%char => Value 1%float
  | "2"%char => Value 2%float
  | "3"%char => Value 3%float
  | "4"%char => Value 4%float
  | "5"%char => Value 5%float
  | "6"%char => Value 6%float
  | "7"%char => Value 7%float
  | "8"%char => Value 8%float
  | "9"%char => Value 9%float
  | _ => Error ValueError
  end.

(** [[1 - 2 * float(s) for s in spin_str]]: the comprehension stops at the
    first character that is no digit. *)
Fixpoint spins (spin_str : list ascii) : computed (list float) :=
  match spin_str with
  | [] => Value []
  | s :: rest =>
      and_then (float_of_char s) (fun f =>
      and_then (spins rest) (fun spin_int =>
      Value ((1 - 2 * f)%float :: spin_int)))
  end.

(** [spin_int[i] = spin_int[i]*(-1)**i] for every index [i], from index
    [start] on. *)
Fixpoint stagger (start : nat) (spin_int : list float) : list float :=
  match spin_int with
  | [] => []
  | s :: rest =>
      (s * (if Nat.even start then 1 else -1))%float :: stagger (S start) rest
  end.

(** [sum(spin_int) / len(spin_int)]: the sum of no float is the integer 0,
    and 0 / 0 raises; otherwise the floats are added from the left, starting
    from 0 (as the Python 3.8 of the notebooks does), and the length, which
    is not zero, is converted. *)
Definition mean (spin_int : list float) : computed float :=
  match spin_int with
  | [] => Error ZeroDivisionError
  | _ :: _ =>
      Value (fold_left PrimFloat.add spin_int 0%float
             / float_of_index (List.length spin_int))%float
  end.

(** [acc += term]: [None] is the integer 0 the accumulator starts with. *)
Definition accumulate (acc : option float) (term : float) : option float :=
  Some (match acc with
        | None => 0 + term
        | Some a => a + term
        end)%float.

(** [acc / shots]: the true division of the integer 0 or of a float by the
    integer [shots]. *)
Definition divide_by_shots (acc : option float) (shots : Z) : computed float :=
  match acc with
  | None =>
      if Z.eqb shots 0 then Error ZeroDivisionError
      else Value (if Z.ltb shots 0 then -0 else 0)%float
  | Some a =>
      and_then (float_of_int shots) (fun f =>
      if Z.eqb shots 0 then Error ZeroDivisionError
      else Value (a / f)%float)
  end.

(** The body of the loop of [staggered_magnetization]. *)
Definition staggered_term (spin_str : string) (count : Z) : computed float :=
  let spin_str_rev := rev (list_ascii_of_string spin_str) in
  and_then (spins spin_str_rev) (fun spin_int =>
  let spin_int := stagger 0 spin_int in
  and_then (mean spin_int) (fun m =>
  and_then (float_of_int count) (fun c =>
  Value (m * c)%float))).

(** The body of the loop of [average_magnetization]. *)
Definition average_term (spin_str : string) (count : Z) : computed float :=
  and_then (spins (list_ascii_of_string spin_str)) (fun spin_int =>
  and_then (mean spin_int) (fun m =>
  and_then (float_of_int count) (fun c =>
  Value (m * c)%float))).

(** [for spin_str, count in result.items(): acc += term]. *)
Fixpoint sum_terms (term : string -> Z -> computed float)
         (items : list (string * Z)) (acc : option float)
  : computed (option float) :=
  match items with
  | [] => Value acc
  | (spin_str, count) :: rest =>
      and_then (term spin_str count) (fun t =>
      sum_terms term rest (accumulate acc t))
  end.

Definition staggered_magnetization (result : list (string * Z)) (shots : Z)
  : computed float :=
  and_then (sum_terms staggered_term result None) (fun sm_val =>
  divide_by_shots sm_val shots).

Definition average_magnetization (result : list (string * Z)) (shots : Z)
  : computed float :=
  and_then (sum_terms average_term result None) (fun mag =>
  divide_by_shots mag shots).

(** The keys on which a term is computed: not empty, and decimal digits
    only. *)
Definition is_digit (s : ascii) : bool :=
  match float_of_char s with
  | Value _ => true
  | Error _ => false
  end.

Definition digits_only (spin_str : string) : bool :=
  match list_ascii_of_string spin_str with
  | [] => false
  | chars => forallb is_digit chars
  end.

(** The integers that convert to a float. *)
Definition convertible (z : Z) : bool :=
  match float_of_int z with
  | Value _ => true
  | Error _ => false
  end.

(** The items on which a term is computed. *)
Definition valid_item (item : string * Z) : bool :=
  digits_only (fst item) && convertible (snd item).

(** The error an item that is not valid raises. *)
Definition item_error (item : string * Z) : builtin_error :=
  if negb (forallb is_digit (list_ascii_of_string (fst item))) then ValueError
  else if negb (digits_only (fst item)) then ZeroDivisionError
  else OverflowError.

(** A script whose answers have no distance to the target. *)
Definition undefined_script : list float := [nan; nan; nan; nan; nan]%float.
(** * Properties of the circuit builders *)

Lemma for_loop_total {St : Type} (f : St -> St) (start count : nat) (s : St) :
  for_loop (fun _ s => Ok (f s)) start count s = Ok (Nat.iter count f s).
Proof.
  revert start s.
  induction count as [|c IH]; intros start s; [reflexivity|].
  cbn [for_loop bind]. rewrite IH. now rewrite Nat.iter_succ_r.
Qed.

Lemma int_half_nonneg (N : Z) : (0 <= N)%Z -> int_half N = (N / 2)%Z.
Proof. intros H. unfold int_half. now apply Z.quot_div_nonneg. Qed.

Lemma kron_chain_S (k : nat) (g : gate) :
  kron_chain (S k) g = KroneckerGate [kron_chain k g; make_matchgate].
Proof. reflexivity. Qed.

Lemma kron_chain_qudits (k : nat) (g : gate) :
  qudits (kron_chain k g) = qudits g + 2 * k.
Proof.
  induction k as [|k IH]; [simpl; lia|].
  rewrite kron_chain_S. cbn [qudits map list_sum fold_right]. rewrite IH.
  change (qudits make_matchgate) with 2. lia.
Qed.

Lemma kron_chain_num_inputs (k : nat) (g : gate) :
  num_inputs (kron_chain k g) = num_inputs g + 10 * k.
Proof.
  induction k as [|k IH]; [simpl; lia|].
  rewrite kron_chain_S. cbn [num_inputs map list_sum fold_right]. rewrite IH.
  change (num_inputs make_matchgate) with 10. lia.
Qed.

Lemma primitives_kron (gs : list gate) :
  primitives (KroneckerGate gs) = list_sum (map primitives gs).
Proof. reflexivity. Qed.

Lemma kron_chain_primitives (k : nat) (g : gate) :
  primitives (kron_chain k g) = primitives g + k.
Proof.
  induction k as [|k IH]; [simpl; lia|].
  rewrite kron_chain_S, primitives_kron. cbn [map list_sum fold_right]. rewrite IH.
  change (primitives make_matchgate) with 1. lia.
Qed.

(** The loop of [make_layertype1] once [layer] is bound. *)
Lemma layertype1_loop_bound (start count : nat) (g : gate) :
  1 <= start ->
  for_loop make_layertype1_body start count (Some g)
  = Ok (Some (kron_chain count g)).
Proof.
  revert start g.
  induction count as [|c IH]; intros start g Hs; [reflexivity|].
  cbn [for_loop]. unfold make_layertype1_body at 1.
  destruct (Nat.eqb_spec start 0) as [E|_]; [lia|].
  cbn [read_local bind]. rewrite IH by lia.
  unfold kron_chain. now rewrite Nat.iter_succ_r.
Qed.

(** [make_layertype1(N)] in closed form, for [N >= 2]. *)
Lemma make_layertype1_closed (N : Z) :
  (2 <= N)%Z ->
  make_layertype1 N =
  Ok (let chain := kron_chain (Z.to_nat (N / 2) - 1) make_matchgate in
      if Z.eqb (N mod 2) 0 then chain else KroneckerGate [chain; IdentityGate]).
Proof.
  intros HN. unfold make_layertype1, for_range.
  rewrite int_half_nonneg by lia.
  assert (Hk : exists k, Z.to_nat (N / 2) = S k).
  { exists (Z.to_nat (N / 2) - 1).
    assert (1 <= N / 2)%Z by (apply Z.div_le_lower_bound; lia). lia. }
  destruct Hk as [k Hk]. rewrite Hk.
  replace (S k - 1) with k by lia.
  cbn [for_loop]. unfold make_layertype1_body at 1.
  cbn [Nat.eqb bind]. rewrite layertype1_loop_bound by lia.
  cbn [bind]. destruct (Z.eqb (N mod 2) 0); reflexivity.
Qed.

(** [make_layertype2(N)] in closed form; it never fails. *)
Lemma make_layertype2_closed (N : Z) :
  make_layertype2 N =
  Ok (if Z.eqb (N mod 2) 0
      then KroneckerGate [kron_chain (Z.to_nat (int_half N - 1)) IdentityGate;
                          IdentityGate]
      else kron_chain (Z.to_nat (int_half N)) IdentityGate).
Proof.
  unfold make_layertype2, for_range.
  destruct (Z.eqb (N mod 2) 0); rewrite for_loop_total; reflexivity.
Qed.

Lemma fold_left_seq_S {A : Type} (f : A -> nat -> A) (start count : nat) (a : A) :
  fold_left f (seq start (S count)) a
  = f (fold_left f (seq start count) a) (start + count).
Proof. now rewrite seq_S, fold_left_app. Qed.

(** The loop of [make_MGC] once [circuit] is bound. *)
Lemma make_MGC_loop_bound (N : Z) (g1 g2 : gate) (start count : nat) (c : gate) :
  1 <= start ->
  make_layertype2 N = Ok g2 ->
  make_layertype1 N = Ok g1 ->
  for_loop (make_MGC_body make_layertype1 make_layertype2 N)
           start count (Some c)
  = Ok (Some (fold_left (fun c l => ProductGate [c; pick_layer g1 g2 l])
                        (seq start count) c)).
Proof.
  intros Hs H2 H1. revert start c Hs.
  induction count as [|n IH]; intros start c Hs; [reflexivity|].
  cbn [for_loop seq fold_left]. unfold make_MGC_body at 1, pick_layer at 2.
  destruct (Nat.eqb (start mod 2) 0).
  - destruct (Nat.eqb_spec start 0) as [E|_]; [lia|].
    cbn [read_local bind]. rewrite H2. cbn [bind]. apply IH. lia.
  - cbn [read_local bind]. rewrite H1. cbn [bind]. apply IH. lia.
Qed.

Lemma layers_of_fold (g1 g2 : gate) (start count : nat) (c : gate) :
  layers_of count
    (fold_left (fun c l => ProductGate [c; pick_layer g1 g2 l])
               (seq start count) c)
  = Some (c :: map (pick_layer g1 g2) (seq start count)).
Proof.
  induction count as [|n IH]; [reflexivity|].
  rewrite fold_left_seq_S. cbn [layers_of]. rewrite IH.
  cbn [option_map]. now rewrite seq_S, map_app.
Qed.

(** [make_MGC(N)] in closed form, for [N >= 2]. *)
Lemma make_MGC_closed (N : Z) (g1 g2 : gate) :
  (2 <= N)%Z ->
  make_layertype1 N = Ok g1 ->
  make_layertype2 N = Ok g2 ->
  make_MGC N
  = Ok (fold_left (fun c l => ProductGate [c; pick_layer g1 g2 l])
                  (seq 1 (Z.to_nat N - 1)) g2).
Proof.
  intros HN H1 H2.
  destruct (Z.to_nat N) as [|n] eqn:En; [lia|].
  replace (S n - 1) with n by lia.
  unfold make_MGC, make_MGC_loop, for_range. rewrite En.
  cbn [for_loop]. unfold make_MGC_body at 1.
  change (Nat.eqb (0 mod 2) 0) with true. cbn [Nat.eqb].
  rewrite H2. cbn [bind].
  rewrite (make_MGC_loop_bound N (g1 := g1) (g2 := g2)) by (auto; lia).
  reflexivity.
Qed.

(** [make_MGC(N)] for [N >= 2]: the layers in time order. *)
Lemma make_MGC_layers (N : Z) (g1 g2 : gate) :
  (2 <= N)%Z ->
  make_layertype1 N = Ok g1 ->
  make_layertype2 N = Ok g2 ->
  exists circuit,
    make_MGC N = Ok circuit /\
    layers_of (Z.to_nat N - 1) circuit
    = Some (map (pick_layer g1 g2) (seq 0 (Z.to_nat N))).
Proof.
  intros HN H1 H2.
  eexists. split; [exact (make_MGC_closed HN H1 H2)|].
  rewrite layers_of_fold.
  destruct (Z.to_nat N) as [|n] eqn:En; [lia|].
  replace (S n - 1) with n by lia. reflexivity.
Qed.

(** The same for the single layer of [N = 1]. *)
Lemma make_MGC_one (layertype1 : Z -> result gate) :
  make_MGC_loop layertype1 make_layertype2 1 = Ok IdentityGate.
Proof. reflexivity. Qed.

Lemma half_facts (N : Z) :
  (2 <= N)%Z ->
  (N = 2 * (N / 2) + N mod 2 /\ 0 <= N mod 2 < 2 /\ 1 <= N / 2)%Z.
Proof.
  intros HN. pose proof (Z.div_mod N 2 ltac:(lia)).
  pose proof (Z.mod_pos_bound N 2 ltac:(lia)).
  repeat split; try lia.
Qed.

Lemma pred_half (N : Z) :
  (2 <= N)%Z ->
  ((N - 1) / 2 = if Z.eqb (N mod 2) 0 then N / 2 - 1 else N / 2)%Z.
Proof.
  intros HN. destruct (half_facts HN) as (E & B & _).
  destruct (Z.eqb_spec (N mod 2) 0) as [H0|H0].
  - symmetry. apply (Z.div_unique (N - 1) 2 (N / 2 - 1) 1); lia.
  - symmetry. apply (Z.div_unique (N - 1) 2 (N / 2) 0); lia.
Qed.

(** Qubit counts, primitives and parameters of the two layers. *)
Lemma layers_measure (N : Z) :
  (2 <= N)%Z ->
  exists g1 g2,
    make_layertype1 N = Ok g1 /\ make_layertype2 N = Ok g2 /\
    Z.of_nat (qudits g1) = N /\ Z.of_nat (qudits g2) = N /\
    Z.of_nat (primitives g1) = (N / 2)%Z /\
    Z.of_nat (primitives g2) = ((N - 1) / 2)%Z /\
    num_inputs g1 = 10 * primitives g1 /\
    num_inputs g2 = 10 * primitives g2.
Proof.
  intros HN. destruct (half_facts HN) as (E & B & Hh).
  rewrite (pred_half HN).
  eexists. eexists.
  split; [apply (make_layertype1_closed HN)|].
  split; [apply make_layertype2_closed|].
  rewrite (int_half_nonneg (N := N)) by lia.
  cbv zeta.
  destruct (Z.eqb_spec (N mod 2) 0) as [H0|H0];
    rewrite ?primitives_kron;
    cbn [qudits num_inputs map list_sum fold_right];
    rewrite ?kron_chain_qudits, ?kron_chain_num_inputs, ?kron_chain_primitives;
    change (qudits make_matchgate) with 2;
    change (num_inputs make_matchgate) with 10;
    change (primitives make_matchgate) with 1;
    change (primitives IdentityGate) with 0;
    cbn [qudits num_inputs];
    repeat split; lia.
Qed.

(** ** The total parameter count of [make_MGC] *)

Lemma product_spine_num_inputs (g1 g2 : gate) (start count : nat) (c : gate) :
  num_inputs (fold_left (fun c l => ProductGate [c; pick_layer g1 g2 l])
                        (seq start count) c)
  = num_inputs c
    + list_sum (map (fun l => num_inputs (pick_layer g1 g2 l)) (seq start count)).
Proof.
  induction count as [|n IH]; [cbn; lia|].
  rewrite fold_left_seq_S, seq_S, map_app, list_sum_app.
  cbn [num_inputs map list_sum fold_right]. rewrite IH. lia.
Qed.

Lemma alternating_sum (a1 a2 q : nat) :
  list_sum (map (fun l => if Nat.eqb (l mod 2) 0 then a2 else a1) (seq 0 (2 * q)))
  = q * (a1 + a2).
Proof.
  induction q as [|q IH]; [reflexivity|].
  replace (2 * S q) with (S (S (2 * q))) by lia.
  rewrite !seq_S, !map_app, !list_sum_app, IH.
  cbn [map list_sum fold_right Nat.add].
  replace (S (2 * q)) with (1 + q * 2) by lia.
  replace (2 * q) with (0 + q * 2) by lia.
  rewrite !Nat.Div0.mod_add. cbn. lia.
Qed.

Lemma make_MGC_num_inputs (N : Z) :
  (2 <= N)%Z ->
  exists circuit,
    make_MGC N = Ok circuit /\
    Z.of_nat (num_inputs circuit)
    = (10 * ((N + 1) / 2 * ((N - 1) / 2) + N / 2 * (N / 2)))%Z.
Proof.
  intros HN.
  destruct (layers_measure HN) as (g1 & g2 & H1 & H2 & _ & _ & P1 & P2 & I1 & I2).
  eexists. split; [exact (make_MGC_closed HN H1 H2)|].
  rewrite product_spine_num_inputs.
  destruct (half_facts HN) as (E & B & Hh).
  rewrite (pred_half HN) in *.
  assert (Hsum :
    num_inputs g2
    + list_sum (map (fun l => num_inputs (pick_layer g1 g2 l))
                    (seq 1 (Z.to_nat N - 1)))
    = list_sum (map (fun l => if Nat.eqb (l mod 2) 0
                              then num_inputs g2 else num_inputs g1)
                    (seq 0 (Z.to_nat N)))).
  { destruct (Z.to_nat N) as [|n] eqn:En; [lia|].
    replace (S n - 1) with n by lia. unfold list_sum.
    cbn [seq map fold_right]. change (Nat.eqb (0 mod 2) 0) with true.
    cbv iota. f_equal. f_equal. apply map_ext. intros l. unfold pick_layer.
    now destruct (Nat.eqb (l mod 2) 0). }
  rewrite Hsum. clear Hsum.
  set (q := Z.to_nat (N / 2)).
  assert (Hq : Z.of_nat q = (N / 2)%Z) by (unfold q; lia).
  destruct (Z.eqb_spec (N mod 2) 0) as [H0|H0].
  - replace (Z.to_nat N) with (2 * q) by lia.
    rewrite alternating_sum.
    replace ((N + 1) / 2)%Z with (N / 2)%Z
      by (apply (Z.div_unique (N + 1) 2 (N / 2) 1); lia).
    rewrite I1, I2. nia.
  - replace (Z.to_nat N) with (S (2 * q)) by lia.
    rewrite seq_S, map_app, list_sum_app, alternating_sum.
    cbn [map list_sum fold_right Nat.add].
    replace (2 * q) with (0 + q * 2) by lia. rewrite Nat.Div0.mod_add.
    cbn [Nat.modulo Nat.divmod Nat.eqb snd fst Nat.sub].
    replace ((N + 1) / 2)%Z with (N / 2 + 1)%Z
      by (apply (Z.div_unique (N + 1) 2 (N / 2 + 1) 0); lia).
    rewrite I1, I2. nia.
Qed.

(** * The claims about the circuit builders *)

(** C5: [make_matchgate()] returns a sequential composition over 2 qubits of
    exactly 7 steps, in this order: a paired Z-rotation layer, a paired
    X-rotation layer, a controlled-not, a mixed X/Z-rotation layer, a second
    controlled-not, a paired X-rotation layer and a paired Z-rotation
    layer. *)
Theorem make_matchgate_steps :
  exists steps,
    make_matchgate = ProductGate steps /\
    List.length steps = 7 /\
    steps = [KroneckerGate [ZGate; ZGate];
             KroneckerGate [XGate; XGate];
             CNOTGate;
             KroneckerGate [XGate; ZGate];
             CNOTGate;
             KroneckerGate [XGate; XGate];
             KroneckerGate [ZGate; ZGate]] /\
    Forall (fun step => qudits step = 2) steps /\
    qudits make_matchgate = 2.
Proof.
  eexists. split; [reflexivity|].
  split; [reflexivity|]. split; [reflexivity|].
  split; [|reflexivity].
  repeat constructor.
Qed.






(** * The order of binary64 values

    [<] and [<=] on floats are the comparisons of the IEEE specification;
    both are transitive, also in the presence of NaN, and a value that is
    below another one is not NaN. *)

Ltac cmp_cases :=
  repeat match goal with
    | |- context [Z.compare ?a ?b] =>
        destruct (Z.compare_spec a b); subst
    | |- context [Pos.compare_cont Eq ?a ?b] =>
        change (Pos.compare_cont Eq a b) with (Pos.compare a b);
        destruct (Pos.compare_spec a b); subst
    end.

Lemma SFltb_trans (x y z : spec_float) :
  SFltb x y = true -> SFltb y z = true -> SFltb x z = true.
Proof.
  unfold SFltb, SFcompare.
  destruct x as [[|]|[|]| |[|] mx ex], y as [[|]|[|]| |[|] my ey],
        z as [[|]|[|]| |[|] mz ez];
    try discriminate; try reflexivity;
    cmp_cases; cbn; intros; try discriminate; try reflexivity; lia.
Qed.

Lemma SFleb_trans (x y z : spec_float) :
  SFleb x y = true -> SFleb y z = true -> SFleb x z = true.
Proof.
  unfold SFleb, SFcompare.
  destruct x as [[|]|[|]| |[|] mx ex], y as [[|]|[|]| |[|] my ey],
        z as [[|]|[|]| |[|] mz ez];
    try discriminate; try reflexivity;
    cmp_cases; cbn; intros; try discriminate; try reflexivity; lia.
Qed.

Lemma SFltb_leb (x y : spec_float) : SFltb x y = true -> SFleb x y = true.
Proof.
  unfold SFltb, SFleb. destruct (SFcompare x y) as [[| |]|]; auto.
Qed.

Lemma SFltb_leb_refl (x y : spec_float) : SFltb x y = true -> SFleb x x = true.
Proof.
  unfold SFltb, SFleb, SFcompare.
  destruct x as [[|]|[|]| |[|] mx ex], y as [[|]|[|]| |[|] my ey];
    try discriminate; try reflexivity; intros _;
    rewrite Z.compare_refl;
    change (Pos.compare_cont Eq mx mx) with (Pos.compare mx mx);
    rewrite Pos.compare_refl; reflexivity.
Qed.

Lemma float_ltb_trans (x y z : float) :
  (x <? y)%float = true -> (y <? z)%float = true -> (x <? z)%float = true.
Proof. rewrite !ltb_spec. apply SFltb_trans. Qed.

Lemma float_leb_trans (x y z : float) :
  (x <=? y)%float = true -> (y <=? z)%float = true -> (x <=? z)%float = true.
Proof. rewrite !leb_spec. apply SFleb_trans. Qed.

Lemma float_ltb_leb (x y : float) :
  (x <? y)%float = true -> (x <=? y)%float = true.
Proof. rewrite ltb_spec, leb_spec. apply SFltb_leb. Qed.

Lemma float_ltb_leb_refl (x y : float) :
  (x <? y)%float = true -> (x <=? x)%float = true.
Proof. rewrite ltb_spec, leb_spec. apply SFltb_leb_refl. Qed.

Lemma tolerance_below_one : (tolerance <? 1)%float = true.
Proof. reflexivity. Qed.

(** * Properties of the synthesis loop *)

Lemma nth_error_lt {A : Type} (l : list A) (i : nat) (a : A) :
  nth_error l i = Some a -> i < List.length l.
Proof. intros H. apply nth_error_Some. congruence. Qed.

Section SynthesisFacts.

Variables Matrix Params World : Type.
Variable MultiStart_Solver :
  Z -> gate -> Options Matrix -> World -> result (Matrix * Params) * World.
Variable matrix_distance_squared : Matrix -> Matrix -> result float.

Local Notation "'state'" := (loop_state Matrix Params).
Local Notation "'retry'" :=
  (retry_loop MultiStart_Solver matrix_distance_squared).
Local Notation "'synth'" :=
  (synthesize MultiStart_Solver matrix_distance_squared).

(** A property of the loop variables that every assignment of the loop
    preserves holds when the loop ends, however it ends. *)
Lemma retry_loop_preserves (P : state -> Prop)
      (circ_struct : gate) (opts : Options Matrix) (target : Matrix) :
  (forall st m v, P st -> P (assign_answer st m v)) ->
  (forall st m v d, P st -> P (account st m v d)) ->
  forall n st e, P st -> P (snd (fst (retry circ_struct opts target n st e))).
Proof.
  intros Hassign Haccount.
  induction n as [|n IH]; intros st e Hst; [exact Hst|].
  cbn [retry_loop]. unfold call_solver.
  destruct (MultiStart_Solver 24 circ_struct opts (ambient e))
    as [[[m v]|x] w]; [|exact Hst].
  destruct (matrix_distance_squared m target) as [d|x]; [|now apply Hassign].
  destruct (dist (account st m v d) <? tolerance)%float.
  - now apply Haccount.
  - apply IH. now apply Haccount.
Qed.

Lemma best_below (dist_new d : float) :
  (d <=? d)%float = true ->
  let d' := if (dist_new <? d)%float then dist_new else d in
  (d' <=? d)%float = true /\ (d' <=? d')%float = true.
Proof.
  intros Hd. cbv zeta. destruct (dist_new <? d)%float eqn:E.
  - split; [now apply float_ltb_leb | now apply (float_ltb_leb_refl E)].
  - now split.
Qed.

Lemma tracked_account (st : state) (m : Matrix) (v : Params) (d : float) :
  tracked st -> tracked (account st m v d).
Proof.
  intros (Hrefl & Hone & Hlow & Hmono).
  destruct (best_below d Hrefl) as [Hle Hrefl'].
  unfold tracked, account. cbn [dist attempts].
  set (d' := if (d <? dist st)%float then d else dist st) in *.
  split; [exact Hrefl'|].
  split; [now apply (float_leb_trans Hle)|].
  split.
  - intros a Ha. apply in_app_or in Ha. destruct Ha as [Ha|[<-|[]]].
    + destruct (Hlow a Ha) as [H1 H2]. split; [|exact H2].
      now apply (float_leb_trans Hle).
    + cbn [a_dist]. split; [exact Hrefl'|].
      now apply (float_leb_trans Hle).
  - intros i j a b Hij Hi Hj.
    destruct (Nat.lt_ge_cases j (List.length (attempts st))) as [Hjl|Hjl].
    + rewrite nth_error_app1 in Hi, Hj by lia. eauto.
    + rewrite nth_error_app2 in Hj by lia.
      destruct (j - List.length (attempts st)) as [|k] eqn:Ej;
        [|destruct k; discriminate].
      injection Hj as <-. cbn [a_dist].
      destruct (Nat.lt_ge_cases i (List.length (attempts st))) as [Hil|Hil].
      * rewrite nth_error_app1 in Hi by lia.
        apply nth_error_In in Hi. destruct (Hlow a Hi) as [H1 _].
        now apply (float_leb_trans Hle).
      * rewrite nth_error_app2 in Hi by lia.
        replace (i - List.length (attempts st)) with 0 in Hi by lia.
        injection Hi as <-. exact Hrefl'.
Qed.

Lemma tracked_initial : tracked (initial_state Matrix Params).
Proof.
  repeat split; try reflexivity.
  - destruct H.
  - destruct H.
  - destruct i; discriminate.
Qed.

Lemma retry_loop_tracked (circ_struct : gate) (opts : Options Matrix)
      (target : Matrix) (n : nat) (st : state) (e : env Matrix World) :
  tracked st -> tracked (snd (fst (retry circ_struct opts target n st e))).
Proof.
  apply retry_loop_preserves.
  - intros st0 m v H. exact H.
  - intros st0 m v d. apply tracked_account.
Qed.

(** The solver invocations of the retry loop, and where it stops. *)
Lemma retry_loop_calls (circ_struct : gate) (opts : Options Matrix)
      (target : Matrix) (n : nat) :
  forall (st : state) (e : env Matrix World),
    let r := retry circ_struct opts target n st e in
    exists k,
      k <= n /\ (n <> 0 -> 1 <= k) /\
      solver_log (snd r)
      = solver_log e ++ repeat (circ_struct, opt_target opts) k /\
      (exists rest, attempts (snd (fst r)) = attempts st ++ rest /\
                    List.length rest <= k /\
                    (fst (fst r) = Normal -> List.length rest = k)) /\
      (forall i a,
          List.length (attempts st) <= i ->
          nth_error (attempts (snd (fst r))) i = Some a ->
          (a_dist a <? tolerance)%float = true ->
          fst (fst r) = Normal /\
          List.length (attempts (snd (fst r))) = S i).
Proof.
  induction n as [|n IH]; intros st e; cbv zeta.
  - exists 0. cbn [retry_loop fst snd repeat]. rewrite app_nil_r.
    split; [lia|]. split; [congruence|]. split; [reflexivity|]. split.
    + exists []. rewrite app_nil_r. cbn. auto.
    + intros i a Hi Hn _. apply nth_error_lt in Hn. lia.
  - cbn [retry_loop]. unfold call_solver.
    destruct (MultiStart_Solver 24 circ_struct opts (ambient e))
      as [[[m v]|x] w].
    2:{ exists 1. cbn [fst snd solver_log repeat].
        split; [lia|]. split; [lia|]. split; [reflexivity|]. split.
        - exists []. rewrite app_nil_r. cbn. split; [auto|]. split; [lia|].
          discriminate.
        - intros i a Hi Hn _. apply nth_error_lt in Hn. lia. }
    destruct (matrix_distance_squared m target) as [d|x].
    2:{ exists 1. cbn [fst snd solver_log repeat assign_answer attempts].
        split; [lia|]. split; [lia|]. split; [reflexivity|]. split.
        - exists []. rewrite app_nil_r. cbn. split; [auto|]. split; [lia|].
          discriminate.
        - intros i a Hi Hn _. apply nth_error_lt in Hn. lia. }
    set (st' := account st m v d).
    set (e1 := {| ambient := w;
                  solver_log := solver_log e ++ [(circ_struct, opt_target opts)] |}).
    assert (Hatt : attempts st' = attempts st ++
              [{| a_mat := m; a_vec := v; a_dist_new := d; a_dist := dist st' |}])
      by reflexivity.
    destruct (dist st' <? tolerance)%float eqn:Etol.
    + exists 1. cbn [fst snd solver_log repeat].
      split; [lia|]. split; [lia|]. split; [reflexivity|]. split.
      * eexists. split; [exact Hatt|]. cbn. auto.
      * intros i a Hi Hn _. split; [reflexivity|].
        apply nth_error_lt in Hn. rewrite Hatt in *.
        rewrite length_app in *. cbn [List.length] in *. lia.
    + destruct (IH st' e1) as (k & Hk & _ & Hlog & (rest & Hrest & Hlen & Hnorm) & Hstop).
      exists (S k). split; [lia|]. split; [lia|]. split.
      * rewrite Hlog. cbn [e1 solver_log repeat]. now rewrite <- app_assoc.
      * split.
        -- eexists. split.
           ++ rewrite Hrest, Hatt, <- app_assoc. reflexivity.
           ++ cbn [List.length app]. split; [lia|]. intros Hc.
              specialize (Hnorm Hc). lia.
        -- intros i a Hi Hn Ha.
           destruct (Nat.eq_dec i (List.length (attempts st))) as [->|Hne].
           ++ rewrite Hrest, Hatt, <- app_assoc, nth_error_app2 in Hn by lia.
              rewrite Nat.sub_diag in Hn. cbn in Hn. injection Hn as <-.
              exfalso. subst st'. cbn in Ha, Etol. congruence.
           ++ apply (Hstop i a); auto. rewrite Hatt, length_app. cbn. lia.
Qed.

(** A first attempt below the tolerance ends the loop at once. *)
Lemma retry_loop_first_below (circ_struct : gate) (opts : Options Matrix)
      (target : Matrix) (n : nat) (e : env Matrix World)
      (m : Matrix) (v : Params) (w : World) (d : float) :
  MultiStart_Solver 24 circ_struct opts (ambient e) = (Ok (m, v), w) ->
  matrix_distance_squared m target = Ok d ->
  (d <? tolerance)%float = true ->
  retry circ_struct opts target (S n) (initial_state Matrix Params) e
  = (Normal,
     {| dist := d; mat := Some m; vec := Some v;
        attempts := [{| a_mat := m; a_vec := v;
                        a_dist_new := d; a_dist := d |}] |},
     {| ambient := w;
        solver_log := solver_log e ++ [(circ_struct, opt_target opts)] |}).
Proof.
  intros Hs Hd Ht.
  assert (H1 : (d <? 1)%float = true).
  { apply float_ltb_trans with tolerance; [exact Ht | reflexivity]. }
  cbn [retry_loop]. unfold call_solver. rewrite Hs, Hd.
  unfold account, initial_state. cbn [dist attempts app].
  rewrite H1, Ht. reflexivity.
Qed.

(** The loop raises nothing of its own: when the two library functions
    return, it completes, and [vec] is bound after one iteration. *)
Lemma retry_loop_completes (circ_struct : gate) (opts : Options Matrix)
      (target : Matrix) :
  (forall c o w, exists mv w', MultiStart_Solver 24 c o w = (Ok mv, w')) ->
  (forall m t, exists d, matrix_distance_squared m t = Ok d) ->
  forall n (st : state) e,
    let r := retry circ_struct opts target n st e in
    fst (fst r) = Normal /\
    (n <> 0 \/ vec st <> None -> vec (snd (fst r)) <> None).
Proof.
  intros Hsolve Hdist.
  induction n as [|n IH]; intros st e; cbv zeta.
  - cbn. split; [reflexivity|]. intros [H|H]; congruence.
  - cbn [retry_loop]. unfold call_solver.
    destruct (Hsolve circ_struct opts (ambient e)) as ([m v] & w & ->).
    destruct (Hdist m target) as (d & ->).
    destruct (dist (account st m v d) <? tolerance)%float.
    + cbn. split; [reflexivity|]. intros _. discriminate.
    + destruct (IH (account st m v d)
                   {| ambient := w;
                      solver_log := solver_log e ++
                                    [(circ_struct, opt_target opts)] |})
        as [Hn Hv].
      split; [exact Hn|]. intros _. apply Hv. right. discriminate.
Qed.

(** The loop depends on the ambient state through the solver's answers
    only. *)
Lemma retry_loop_answers (circ_struct : gate) (opts : Options Matrix)
      (target : Matrix) (n : nat) :
  forall (st : state) (e1 e2 : env Matrix World),
    answers MultiStart_Solver circ_struct opts n (ambient e1)
    = answers MultiStart_Solver circ_struct opts n (ambient e2) ->
    fst (retry circ_struct opts target n st e1)
    = fst (retry circ_struct opts target n st e2).
Proof.
  induction n as [|n IH]; intros st e1 e2 Hans; [reflexivity|].
  cbn [retry_loop answers] in *. unfold call_solver.
  destruct (MultiStart_Solver 24 circ_struct opts (ambient e1)) as [r1 w1].
  destruct (MultiStart_Solver 24 circ_struct opts (ambient e2)) as [r2 w2].
  injection Hans as -> Htail.
  destruct r2 as [[m v]|x]; [|reflexivity].
  destruct (matrix_distance_squared m target) as [d|x]; [|reflexivity].
  destruct (dist (account st m v d) <? tolerance)%float; [reflexivity|].
  apply IH. exact Htail.
Qed.

(** The solver invocations of one synthesis call: between one and five,
    all with the structure of [make_MGC(N)] and the target as given. *)
Lemma synthesize_log (N : Z) (target : Matrix) (e : env Matrix World)
      (circuit : gate) :
  make_MGC N = Ok circuit ->
  exists k,
    1 <= k <= 5 /\
    solver_log (snd (synth N target e))
    = solver_log e ++ repeat (circuit, target) k.
Proof.
  intros Hc. unfold synthesize. rewrite Hc.
  destruct (retry_loop_calls circuit {| opt_target := target |} target 5
              (initial_state Matrix Params) e)
    as (k & Hk & Hk1 & Hlog & _).
  exists k. split; [split; [apply Hk1; discriminate | exact Hk]|].
  cbn [opt_target] in Hlog. rewrite <- Hlog.
  destruct (retry circuit {| opt_target := target |} target 5
                  (initial_state Matrix Params) e) as [[c st] e'].
  destruct c; [destruct (read_local "vec" (vec st))|]; reflexivity.
Qed.

Lemma synthesize_structure (N : Z) (target : Matrix) (e e' : env Matrix World)
      (circuit : gate) (s : synthesis Matrix Params) :
  make_MGC N = Ok circuit ->
  synth N target e = (Ok s, e') ->
  structure s = circuit.
Proof.
  intros Hc. unfold synthesize. rewrite Hc.
  destruct (retry circuit {| opt_target := target |} target 5
                  (initial_state Matrix Params) e) as [[c st] e''].
  destruct c; [destruct (read_local "vec" (vec st))|];
    intros H; inversion H; reflexivity.
Qed.

(** C3: across the retry attempts of one synthesis call the tracked best
    distance never increases: its value after an attempt is less than or
    equal to its value after every earlier attempt (and to the initial
    value 1), whatever distances the attempts return and however the loop
    ends; the value the loop ends with is below all of them. *)
Theorem best_distance_non_increasing
        (circ_struct : gate) (opts : Options Matrix) (target : Matrix)
        (n : nat) (e : env Matrix World)
        (i j : nat) (a b : attempt Matrix Params) :
  let st := snd (fst (retry circ_struct opts target n
                            (initial_state Matrix Params) e)) in
  i <= j ->
  nth_error (attempts st) i = Some a ->
  nth_error (attempts st) j = Some b ->
  (a_dist b <=? a_dist a)%float = true /\
  (a_dist a <=? 1)%float = true /\
  (dist st <=? a_dist b)%float = true.
Proof.
  intros st Hij Hi Hj.
  destruct (retry_loop_tracked circ_struct opts target n e tracked_initial)
    as (_ & _ & Hlow & Hmono).
  fold st in Hlow, Hmono.
  split; [exact (Hmono i j a b Hij Hi Hj)|].
  split.
  - apply (Hlow a). exact (nth_error_In _ _ Hi).
  - apply (Hlow b). exact (nth_error_In _ _ Hj).
Qed.

(** C4: one synthesis call invokes the solver at most 5 times (and at
    least once); once an attempt leaves the tracked distance below the
    tolerance 1e-10 no further invocation is made, so that attempt is the
    last one; and when the first attempt is already below the tolerance
    exactly one invocation occurs. *)
Theorem retry_budget (circ_struct : gate) (target : Matrix)
        (e : env Matrix World) :
  let opts := {| opt_target := target |} in
  let r := retry circ_struct opts target 5 (initial_state Matrix Params) e in
  exists k,
    1 <= k <= 5 /\
    solver_log (snd r) = solver_log e ++ repeat (circ_struct, target) k /\
    List.length (attempts (snd (fst r))) <= k /\
    (forall i a,
        nth_error (attempts (snd (fst r))) i = Some a ->
        (a_dist a <? tolerance)%float = true ->
        k = S i /\ fst (fst r) = Normal /\
        List.length (attempts (snd (fst r))) = S i) /\
    (forall m v w d,
        MultiStart_Solver 24 circ_struct opts (ambient e) = (Ok (m, v), w) ->
        matrix_distance_squared m target = Ok d ->
        (d <? tolerance)%float = true ->
        k = 1 /\ fst (fst r) = Normal).
Proof.
  intros opts r.
  destruct (retry_loop_calls circ_struct opts target 5
              (initial_state Matrix Params) e)
    as (k & Hk & Hk1 & Hlog & (rest & Hrest & Hlen & Hnorm) & Hstop).
  fold r in Hlog, Hrest, Hnorm, Hstop.
  cbn [initial_state attempts app] in Hrest.
  exists k. split; [split; [apply Hk1; discriminate | exact Hk]|].
  split; [exact Hlog|]. split; [now rewrite Hrest|]. split.
  - intros i a Hn Ha.
    destruct (Hstop i a) as [Hc Hl]; auto.
    { cbn. lia. }
    split; [|split; assumption].
    rewrite <- (Hnorm Hc), <- Hrest. exact Hl.
  - intros m v w d Hs Hd Ht.
    pose proof (@retry_loop_first_below circ_struct opts target 4 e m v w d
                                        Hs Hd Ht) as Hr.
    fold r in Hr. rewrite Hr in Hlog |- *. cbn [fst snd solver_log] in *.
    apply app_inv_head in Hlog.
    split; [|reflexivity].
    apply (f_equal (@List.length _)) in Hlog.
    rewrite repeat_length in Hlog. cbn in Hlog. lia.
Qed.

(** When the loop ends below the tolerance, the last attempt is the one
    that reached it, and [mat] and [vec] are its answer. *)
Lemma retry_loop_converged (circ_struct : gate) (opts : Options Matrix)
      (target : Matrix) (n : nat) :
  forall (st : state) (e : env Matrix World),
    let st' := snd (fst (retry circ_struct opts target n st e)) in
    (dist st <? tolerance)%float = false ->
    (dist st' <? tolerance)%float = true ->
    exists earlier a,
      attempts st' = earlier ++ [a] /\
      a_dist_new a = dist st' /\
      vec st' = Some (a_vec a) /\ mat st' = Some (a_mat a).
Proof.
  induction n as [|n IH]; intros st e; cbv zeta.
  - cbn. congruence.
  - cbn [retry_loop]. unfold call_solver.
    destruct (MultiStart_Solver 24 circ_struct opts (ambient e))
      as [[[m v]|x] w]; [|cbn; congruence].
    destruct (matrix_distance_squared m target) as [d|x]; [|cbn; congruence].
    destruct (dist (account st m v d) <? tolerance)%float eqn:Etol.
    + cbn [fst snd]. intros Hst _.
      exists (attempts st),
             {| a_mat := m; a_vec := v; a_dist_new := d;
                a_dist := dist (account st m v d) |}.
      split; [reflexivity|]. split; [|split; reflexivity].
      cbn in Etol |- *. destruct (d <? dist st)%float; [reflexivity|congruence].
    + intros _. apply IH. exact Etol.
Qed.

(** The synthesis call raises nothing of its own. *)
Lemma synthesize_completes (N : Z) (target : Matrix) (e : env Matrix World)
      (circuit : gate) :
  make_MGC N = Ok circuit ->
  (forall c o w, exists mv w', MultiStart_Solver 24 c o w = (Ok mv, w')) ->
  (forall m t, exists d, matrix_distance_squared m t = Ok d) ->
  exists s, fst (synth N target e) = Ok s.
Proof.
  intros Hc Hsolve Hdist. unfold synthesize. rewrite Hc.
  destruct (retry_loop_completes circuit {| opt_target := target |} target
              Hsolve Hdist 5 (initial_state Matrix Params) e) as [Hn Hv].
  destruct (retry circuit {| opt_target := target |} target 5
                  (initial_state Matrix Params) e) as [[c st] e'].
  cbn [fst snd] in Hn, Hv. subst c.
  destruct (vec st) as [v|] eqn:Ev.
  - cbn. eauto.
  - exfalso. apply Hv; [left; discriminate | reflexivity].
Qed.

(** Every time step of a run hands over the same structure. *)
Lemma run_timesteps_structure (N : Z) (circuit : gate) (targets : list Matrix) :
  make_MGC N = Ok circuit ->
  forall (e e' : env Matrix World) (l : list (synthesis Matrix Params)),
    run_timesteps MultiStart_Solver matrix_distance_squared N targets e
    = (Ok l, e') ->
    List.length l = List.length targets /\
    Forall (fun s => structure s = circuit) l.
Proof.
  intros Hc. induction targets as [|t rest IH]; intros e e' l H.
  - cbn in H. injection H as <- _. split; [reflexivity | constructor].
  - cbn [run_timesteps] in H.
    destruct (synth N t e) as [[s|x] e1] eqn:Es; [|discriminate].
    destruct (run_timesteps MultiStart_Solver matrix_distance_squared N rest e1)
      as [[l'|x] e2] eqn:Er; [|discriminate].
    injection H as <- _.
    destruct (IH e1 e2 l' Er) as [Hlen Hall].
    split; [cbn; now rewrite Hlen|].
    constructor; [|exact Hall].
    exact (synthesize_structure N t e Hc Es).
Qed.

End SynthesisFacts.

(** * The claims about the synthesis loop *)

Lemma even_mod2 (l : nat) : Nat.even l = Nat.eqb (l mod 2) 0.
Proof.
  rewrite (Nat.div_mod_eq l 2) at 1.
  rewrite Nat.add_comm, Nat.even_add_mul_2.
  pose proof (Nat.mod_upper_bound l 2 ltac:(lia)) as Hb.
  destruct (l mod 2) as [|[|k]]; [reflexivity | reflexivity | lia].
Qed.

Lemma make_MGC_defined (N : Z) :
  (1 <= N)%Z ->
  exists circuit layers,
    make_MGC N = Ok circuit /\
    layers_of (Z.to_nat N - 1) circuit = Some layers /\
    List.length layers = Z.to_nat N /\
    (forall l g, nth_error layers l = Some g -> layer_at N l = Ok g).
Proof.
  intros HN. destruct (Z.eq_dec N 1) as [->|Hne].
  - exists IdentityGate, [IdentityGate].
    split; [reflexivity|]. split; [reflexivity|]. split; [reflexivity|].
    intros [|l] g Hn; [|destruct l; discriminate].
    injection Hn as <-. reflexivity.
  - assert (H2 : (2 <= N)%Z) by lia.
    destruct (layers_measure H2) as (g1 & g2 & H1 & Hg2 & _).
    destruct (make_MGC_layers H2 H1 Hg2) as (circuit & Hc & Hl).
    exists circuit, (map (pick_layer g1 g2) (seq 0 (Z.to_nat N))).
    split; [exact Hc|]. split; [exact Hl|].
    split; [now rewrite length_map, length_seq|].
    intros l g Hn.
    rewrite nth_error_map in Hn.
    destruct (nth_error (seq 0 (Z.to_nat N)) l) as [l'|] eqn:El; [|discriminate].
    assert (l' = l).
    { pose proof (nth_error_lt _ _ El) as Hlt. rewrite length_seq in Hlt.
      rewrite nth_error_nth' with (d := 0) in El by now rewrite length_seq.
      rewrite seq_nth in El by exact Hlt. cbn in El. congruence. }
    subst l'. cbn in Hn. injection Hn as <-.
    unfold layer_at, pick_layer. destruct (Nat.eqb (l mod 2) 0); assumption.
Qed.



Lemma best_distance_non_increasing_witness :
  exists a b,
    nth_error
      (attempts (snd (fst (retry_loop (scripted_solver (script_of stalling_script))
                                      gap_distance IdentityGate
                                      {| opt_target := unit_target |} unit_target 5
                                      (initial_state rows (list float))
                                      (fresh_env 0))))) 0 = Some a /\
    nth_error
      (attempts (snd (fst (retry_loop (scripted_solver (script_of stalling_script))
                                      gap_distance IdentityGate
                                      {| opt_target := unit_target |} unit_target 5
                                      (initial_state rows (list float))
                                      (fresh_env 0))))) 4 = Some b /\
    a_dist_new a = 0.25%float /\ a_dist_new b = 0.5%float /\
    (a_dist b <=? a_dist a)%float = true.
Proof.
  eexists. eexists.
  split; [vm_compute; reflexivity|].
  split; [vm_compute; reflexivity|].
  split; [reflexivity|]. split; [reflexivity|].
  apply (@best_distance_non_increasing rows (list float) nat
           (scripted_solver (script_of stalling_script)) gap_distance
           IdentityGate {| opt_target := unit_target |} unit_target 5
           (fresh_env 0) 0 4);
    [lia | vm_compute; reflexivity | vm_compute; reflexivity].
Defined.

(** The budget on a run that converges at once, and on one that never
    does. *)
Example retry_budget_converging :
  List.length
    (solver_log (snd (retry_loop (scripted_solver (script_of converging_script))
                                 gap_distance IdentityGate
                                 {| opt_target := unit_target |} unit_target 5
                                 (initial_state rows (list float))
                                 (fresh_env 0)))) = 1.
Proof. vm_compute. reflexivity. Qed.

Example retry_budget_stalling :
  List.length
    (solver_log (snd (retry_loop (scripted_solver (script_of stalling_script))
                                 gap_distance IdentityGate
                                 {| opt_target := unit_target |} unit_target 5
                                 (initial_state rows (list float))
                                 (fresh_env 0)))) = 5.
Proof. vm_compute. reflexivity. Qed.

(** C1, the notebook at a run that does not converge: the solver's first
    answer is at distance 0.25 and its four later answers at 0.5.  The
    notebook reports 0.25, the distance of the first answer, but hands the
    parameters of the fifth answer to the assembler, whose distance is
    0.5. *)
Theorem emitted_parameters_not_best :
  exists s e',
    synthesize (scripted_solver (script_of stalling_script)) gap_distance
               3 unit_target (fresh_env 0) = (Ok s, e') /\
    map (@a_dist_new _ _) (attempts (final s))
    = [0.25; 0.5; 0.5; 0.5; 0.5]%float /\
    map (@a_vec _ _) (attempts (final s))
    = [[0.75]; [0.5]; [0.5]; [0.5]; [0.5]]%float /\
    reported s = 0.25%float /\
    parameters s = [0.5]%float /\
    mat (final s) = Some [[0.5]]%float /\
    gap_distance [[0.5]]%float unit_target = Ok 0.5%float.
Proof.
  eexists. eexists. split; [vm_compute; reflexivity|].
  repeat split.
Qed.




(** When the solver itself rejects the target, the call fails with the
    solver's error, after the solver has been invoked. *)
Example rejected_target_after_solver_call :
  synthesize rejecting_solver gap_distance 1 malformed_target (fresh_env 0)
  = (Raise (LibraryError "solve_for_unitary"),
     {| ambient := 1; solver_log := [(IdentityGate, malformed_target)] |}).
Proof. reflexivity. Qed.




(** * Unitarity of the evaluated circuit *)

(** ** Complex arithmetic *)

Lemma C_eq (x y : C) : fst x = fst y -> snd x = snd y -> x = y.
Proof. destruct x, y. cbn. now intros -> ->. Qed.

Ltac lca :=
  apply C_eq; cbn [fst snd Cplus Cmult Cconj C0 C1]; ring.

Lemma Cplus_0_l (x : C) : Cplus C0 x = x.
Proof. lca. Qed.

Lemma Cplus_0_r (x : C) : Cplus x C0 = x.
Proof. lca. Qed.

Lemma Cplus_comm (x y : C) : Cplus x y = Cplus y x.
Proof. lca. Qed.

Lemma Cplus_assoc (x y z : C) : Cplus x (Cplus y z) = Cplus (Cplus x y) z.
Proof. lca. Qed.

Lemma Cmult_0_l (x : C) : Cmult C0 x = C0.
Proof. lca. Qed.

Lemma Cmult_0_r (x : C) : Cmult x C0 = C0.
Proof. lca. Qed.

Lemma Cmult_1_l (x : C) : Cmult C1 x = x.
Proof. lca. Qed.

Lemma Cmult_1_r (x : C) : Cmult x C1 = x.
Proof. lca. Qed.

Lemma Cmult_comm (x y : C) : Cmult x y = Cmult y x.
Proof. lca. Qed.

Lemma Cmult_assoc (x y z : C) : Cmult x (Cmult y z) = Cmult (Cmult x y) z.
Proof. lca. Qed.

Lemma Cmult_plus_distr_l (x y z : C) :
  Cmult x (Cplus y z) = Cplus (Cmult x y) (Cmult x z).
Proof. lca. Qed.

Lemma Cmult_plus_distr_r (x y z : C) :
  Cmult (Cplus x y) z = Cplus (Cmult x z) (Cmult y z).
Proof. lca. Qed.

Lemma Cconj_plus (x y : C) : Cconj (Cplus x y) = Cplus (Cconj x) (Cconj y).
Proof. lca. Qed.

Lemma Cconj_mult (x y : C) : Cconj (Cmult x y) = Cmult (Cconj x) (Cconj y).
Proof. lca. Qed.

Lemma Cconj_0 : Cconj C0 = C0.
Proof. lca. Qed.

Lemma Cconj_1 : Cconj C1 = C1.
Proof. lca. Qed.

Lemma Cconj_involutive (x : C) : Cconj (Cconj x) = x.
Proof. lca. Qed.

(** ** Finite sums *)

Lemma Csum_ext (f g : nat -> C) (n : nat) :
  (forall k, k < n -> f k = g k) -> Csum f n = Csum g n.
Proof.
  induction n as [|n IH]; intros H; [reflexivity|].
  cbn [Csum]. rewrite IH by (intros; apply H; lia).
  now rewrite H by lia.
Qed.

Lemma Csum_zero (f : nat -> C) (n : nat) :
  (forall k, k < n -> f k = C0) -> Csum f n = C0.
Proof.
  induction n as [|n IH]; intros H; [reflexivity|].
  cbn [Csum]. rewrite IH by (intros; apply H; lia).
  rewrite H by lia. apply Cplus_0_l.
Qed.

Lemma Csum_plus (f g : nat -> C) (n : nat) :
  Csum (fun k => Cplus (f k) (g k)) n = Cplus (Csum f n) (Csum g n).
Proof.
  induction n as [|n IH]; cbn [Csum]; [lca|]. rewrite IH. lca.
Qed.

Lemma Csum_mult_l (c : C) (f : nat -> C) (n : nat) :
  Cmult c (Csum f n) = Csum (fun k => Cmult c (f k)) n.
Proof.
  induction n as [|n IH]; cbn [Csum]; [lca|].
  now rewrite Cmult_plus_distr_l, IH.
Qed.

Lemma Csum_mult_r (c : C) (f : nat -> C) (n : nat) :
  Cmult (Csum f n) c = Csum (fun k => Cmult (f k) c) n.
Proof.
  induction n as [|n IH]; cbn [Csum]; [lca|].
  now rewrite Cmult_plus_distr_r, IH.
Qed.

Lemma Csum_conj (f : nat -> C) (n : nat) :
  Cconj (Csum f n) = Csum (fun k => Cconj (f k)) n.
Proof.
  induction n as [|n IH]; cbn [Csum]; [lca|].
  now rewrite Cconj_plus, IH.
Qed.

Lemma Csum_swap (f : nat -> nat -> C) (m n : nat) :
  Csum (fun i => Csum (fun j => f i j) n) m
  = Csum (fun j => Csum (fun i => f i j) m) n.
Proof.
  induction m as [|m IH]; cbn [Csum].
  - symmetry. now apply Csum_zero.
  - rewrite IH. now rewrite <- Csum_plus.
Qed.

(** A sum with a single non-zero term. *)
Lemma Csum_single (f : nat -> C) (j n : nat) :
  j < n ->
  (forall k, k < n -> k <> j -> f k = C0) ->
  Csum f n = f j.
Proof.
  induction n as [|n IH]; intros Hj Hz; [lia|].
  cbn [Csum]. destruct (Nat.eq_dec j n) as [->|Hne].
  - rewrite Csum_zero; [apply Cplus_0_l|].
    intros k Hk. apply Hz; lia.
  - rewrite IH by (try lia; intros; apply Hz; lia).
    rewrite (Hz n) by lia. apply Cplus_0_r.
Qed.

Lemma Csum_split (f : nat -> C) (a b : nat) :
  Csum f (a + b) = Cplus (Csum f a) (Csum (fun k => f (a + k)) b).
Proof.
  induction b as [|b IH].
  - rewrite Nat.add_0_r. cbn [Csum]. now rewrite Cplus_0_r.
  - rewrite Nat.add_succ_r. cbn [Csum]. rewrite IH. now rewrite Cplus_assoc.
Qed.

(** A sum over the pairs (a, b) with a < m and b < n, in row-major order. *)
Lemma Csum_product (h : nat -> nat -> C) (m n : nat) :
  n <> 0 ->
  Csum (fun k => h (k / n) (k mod n)) (m * n)
  = Csum (fun a => Csum (fun b => h a b) n) m.
Proof.
  intros Hn. induction m as [|m IH]; [reflexivity|].
  cbn [Csum]. rewrite <- IH.
  replace (S m * n) with (m * n + n) by lia.
  rewrite Csum_split. f_equal.
  apply Csum_ext. intros b Hb.
  rewrite Nat.add_comm, Nat.div_add, Nat.Div0.mod_add by exact Hn.
  rewrite Nat.div_small, Nat.mod_small by exact Hb.
  reflexivity.
Qed.

(** ** Matrices *)

Lemma mat_equiv_refl (d : nat) (A : matrix) : mat_equiv d A A.
Proof. now intros i j _ _. Qed.

Lemma mat_equiv_trans (d : nat) (A B D : matrix) :
  mat_equiv d A B -> mat_equiv d B D -> mat_equiv d A D.
Proof. intros H1 H2 i j Hi Hj. now rewrite H1, H2. Qed.

Lemma Mmult_compat (d : nat) (A A' B B' : matrix) :
  mat_equiv d A A' -> mat_equiv d B B' ->
  mat_equiv d (Mmult d A B) (Mmult d A' B').
Proof.
  intros HA HB i j Hi Hj. unfold Mmult.
  apply Csum_ext. intros k Hk. now rewrite HA, HB.
Qed.

Lemma Mmult_assoc (d : nat) (A B D : matrix) (i j : nat) :
  Mmult d (Mmult d A B) D i j = Mmult d A (Mmult d B D) i j.
Proof.
  unfold Mmult.
  transitivity
    (Csum (fun k => Csum (fun l => Cmult (Cmult (A i l) (B l k)) (D k j)) d) d).
  { apply Csum_ext. intros k _. apply Csum_mult_r. }
  rewrite Csum_swap.
  apply Csum_ext. intros l _.
  rewrite Csum_mult_l. apply Csum_ext. intros k _.
  now rewrite Cmult_assoc.
Qed.

Lemma identity_entry (d i j : nat) :
  i < d -> identity d i j = if Nat.eqb i j then C1 else C0.
Proof.
  intros Hi. unfold identity.
  apply Nat.ltb_lt in Hi. rewrite Hi. now rewrite andb_true_r.
Qed.

Lemma Mmult_1_l (d : nat) (A : matrix) :
  mat_equiv d (Mmult d (identity d) A) A.
Proof.
  intros i j Hi Hj. unfold Mmult.
  rewrite (Csum_single _ (j := i)); [|exact Hi|].
  - rewrite identity_entry, Nat.eqb_refl by exact Hi. apply Cmult_1_l.
  - intros k Hk Hne. rewrite identity_entry by exact Hi.
    destruct (Nat.eqb_spec i k); [congruence|]. apply Cmult_0_l.
Qed.

Lemma Mmult_1_r (d : nat) (A : matrix) :
  mat_equiv d (Mmult d A (identity d)) A.
Proof.
  intros i j Hi Hj. unfold Mmult.
  rewrite (Csum_single _ (j := j)); [|exact Hj|].
  - rewrite identity_entry, Nat.eqb_refl by exact Hj. apply Cmult_1_r.
  - intros k Hk Hne. rewrite identity_entry by exact Hk.
    destruct (Nat.eqb_spec k j); [congruence|]. apply Cmult_0_r.
Qed.

Lemma adjoint_mult (d : nat) (A B : matrix) (i j : nat) :
  adjoint (Mmult d A B) i j = Mmult d (adjoint B) (adjoint A) i j.
Proof.
  unfold adjoint, Mmult. rewrite Csum_conj.
  apply Csum_ext. intros k _. now rewrite Cconj_mult, Cmult_comm.
Qed.

Lemma adjoint_involutive (A : matrix) (i j : nat) :
  adjoint (adjoint A) i j = A i j.
Proof. unfold adjoint. apply Cconj_involutive. Qed.

Lemma shaped_mult (d : nat) (A B : matrix) :
  shaped d A -> shaped d B -> shaped d (Mmult d A B).
Proof.
  intros HA HB i j Hij. unfold Mmult.
  apply Csum_zero. intros k Hk.
  destruct Hij as [Hi|Hj].
  - rewrite HA by auto. apply Cmult_0_l.
  - rewrite HB by auto. apply Cmult_0_r.
Qed.

Lemma shaped_identity (d : nat) : shaped d (identity d).
Proof.
  intros i j Hij. unfold identity.
  destruct (Nat.eqb_spec i j) as [->|_]; [|reflexivity].
  destruct (Nat.ltb_spec j d); [lia|reflexivity].
Qed.

(** [(A B)^* (A B) = B^* ((A^* A) B)] when [A^* A] is the identity. *)
Lemma mult_adjoint_cancel (d : nat) (A B : matrix) :
  mat_equiv d (Mmult d (adjoint A) A) (identity d) ->
  mat_equiv d (Mmult d (adjoint B) B) (identity d) ->
  mat_equiv d (Mmult d (Mmult d (adjoint B) (adjoint A)) (Mmult d A B))
            (identity d).
Proof.
  intros HA HB.
  apply mat_equiv_trans
    with (Mmult d (adjoint B) (Mmult d (Mmult d (adjoint A) A) B)).
  { intros i j _ _. rewrite Mmult_assoc. unfold Mmult at 1 3.
    apply Csum_ext. intros k _. f_equal. symmetry. apply Mmult_assoc. }
  apply mat_equiv_trans with (Mmult d (adjoint B) B); [|exact HB].
  apply Mmult_compat; [apply mat_equiv_refl|].
  apply mat_equiv_trans with (Mmult d (identity d) B); [|apply Mmult_1_l].
  apply Mmult_compat; [exact HA | apply mat_equiv_refl].
Qed.

Lemma unitary_identity (d : nat) : unitary d (identity d).
Proof.
  split; [apply shaped_identity|].
  assert (H : mat_equiv d (adjoint (identity d)) (identity d)).
  { intros i j Hi Hj. unfold adjoint. rewrite !identity_entry by assumption.
    rewrite Nat.eqb_sym. destruct (Nat.eqb i j); [apply Cconj_1 | apply Cconj_0]. }
  split.
  - apply mat_equiv_trans with (Mmult d (identity d) (identity d));
      [|apply Mmult_1_l].
    apply Mmult_compat; [exact H | apply mat_equiv_refl].
  - apply mat_equiv_trans with (Mmult d (identity d) (identity d));
      [|apply Mmult_1_l].
    apply Mmult_compat; [apply mat_equiv_refl | exact H].
Qed.

Lemma unitary_mult (d : nat) (A B : matrix) :
  unitary d A -> unitary d B -> unitary d (Mmult d A B).
Proof.
  intros (SA & LA & RA) (SB & LB & RB).
  split; [now apply shaped_mult|]. split.
  - apply mat_equiv_trans
      with (Mmult d (Mmult d (adjoint B) (adjoint A)) (Mmult d A B)).
    + apply Mmult_compat; [|apply mat_equiv_refl].
      intros i j _ _. apply adjoint_mult.
    + now apply mult_adjoint_cancel.
  - apply mat_equiv_trans
      with (Mmult d (Mmult d A B) (Mmult d (adjoint B) (adjoint A))).
    + apply Mmult_compat; [apply mat_equiv_refl|].
      intros i j _ _. apply adjoint_mult.
    + pose proof (@mult_adjoint_cancel d (adjoint B) (adjoint A)) as H.
      assert (HB' : mat_equiv d (Mmult d (adjoint (adjoint B)) (adjoint B))
                              (identity d)).
      { apply mat_equiv_trans with (Mmult d B (adjoint B)); [|exact RB].
        apply Mmult_compat; [|apply mat_equiv_refl].
        intros i j _ _. apply adjoint_involutive. }
      assert (HA' : mat_equiv d (Mmult d (adjoint (adjoint A)) (adjoint A))
                              (identity d)).
      { apply mat_equiv_trans with (Mmult d A (adjoint A)); [|exact RA].
        apply Mmult_compat; [|apply mat_equiv_refl].
        intros i j _ _. apply adjoint_involutive. }
      specialize (H HB' HA').
      apply mat_equiv_trans
        with (Mmult d (Mmult d (adjoint (adjoint A)) (adjoint (adjoint B)))
                      (Mmult d (adjoint B) (adjoint A))); [|exact H].
      apply Mmult_compat; [|apply mat_equiv_refl].
      apply Mmult_compat; intros i j _ _; symmetry; apply adjoint_involutive.
Qed.

(** ** Kronecker products *)

Lemma kron_index_bounds (m n i : nat) :
  i < m * n -> i / n < m /\ i mod n < n.
Proof.
  intros Hi. assert (Hn : n <> 0) by (intros ->; lia). split.
  - apply Nat.Div0.div_lt_upper_bound. lia.
  - now apply Nat.mod_upper_bound.
Qed.

Lemma kron_compat (m n : nat) (A A' B B' : matrix) :
  mat_equiv m A A' -> mat_equiv n B B' ->
  mat_equiv (m * n) (kron n A B) (kron n A' B').
Proof.
  intros HA HB i j Hi Hj. unfold kron.
  destruct (kron_index_bounds _ _ Hi), (kron_index_bounds _ _ Hj).
  now rewrite HA, HB.
Qed.

Lemma kron_mixed_product (m n : nat) (A A' B B' : matrix) (i j : nat) :
  n <> 0 ->
  Mmult (m * n) (kron n A B) (kron n A' B') i j
  = kron n (Mmult m A A') (Mmult n B B') i j.
Proof.
  intros Hn. unfold Mmult, kron.
  rewrite (Csum_product
             (fun a b => Cmult (Cmult (A (i / n) a) (B (i mod n) b))
                               (Cmult (A' a (j / n)) (B' b (j mod n))))
             m Hn).
  rewrite Csum_mult_r. apply Csum_ext. intros a _.
  rewrite Csum_mult_l. apply Csum_ext. intros b _.
  lca.
Qed.

Lemma adjoint_kron (n : nat) (A B : matrix) (i j : nat) :
  adjoint (kron n A B) i j = kron n (adjoint A) (adjoint B) i j.
Proof. unfold adjoint, kron. apply Cconj_mult. Qed.

Lemma kron_identity (m n : nat) :
  mat_equiv (m * n) (kron n (identity m) (identity n)) (identity (m * n)).
Proof.
  intros i j Hi Hj. unfold kron.
  destruct (kron_index_bounds _ _ Hi) as [Hid Him].
  rewrite !identity_entry by assumption.
  assert (Hn : n <> 0) by (intros ->; lia).
  pose proof (Nat.div_mod_eq i n) as Ei.
  pose proof (Nat.div_mod_eq j n) as Ej.
  destruct (Nat.eqb_spec i j) as [->|Hne].
  - rewrite !Nat.eqb_refl. apply Cmult_1_l.
  - destruct (Nat.eqb_spec (i / n) (j / n)) as [Ed|_]; [|apply Cmult_0_l].
    destruct (Nat.eqb_spec (i mod n) (j mod n)) as [Em|_]; [|apply Cmult_0_r].
    exfalso. apply Hne. rewrite Ei, Ej, Ed, Em. reflexivity.
Qed.

Lemma shaped_kron (m n : nat) (A B : matrix) :
  n <> 0 -> shaped m A -> shaped (m * n) (kron n A B).
Proof.
  intros Hn HA i j Hij. unfold kron.
  rewrite HA; [apply Cmult_0_l|].
  destruct Hij as [H|H]; [left|right];
    apply Nat.div_le_lower_bound; auto; lia.
Qed.

Lemma unitary_kron (m n : nat) (A B : matrix) :
  n <> 0 -> unitary m A -> unitary n B -> unitary (m * n) (kron n A B).
Proof.
  intros Hn (SA & LA & RA) (SB & LB & RB).
  split; [now apply shaped_kron|]. split.
  - apply mat_equiv_trans
      with (Mmult (m * n) (kron n (adjoint A) (adjoint B)) (kron n A B)).
    { apply Mmult_compat; [|apply mat_equiv_refl].
      intros i j _ _. apply adjoint_kron. }
    apply mat_equiv_trans
      with (kron n (Mmult m (adjoint A) A) (Mmult n (adjoint B) B)).
    { intros i j _ _. now apply kron_mixed_product. }
    apply mat_equiv_trans with (kron n (identity m) (identity n));
      [now apply kron_compat | apply kron_identity].
  - apply mat_equiv_trans
      with (Mmult (m * n) (kron n A B) (kron n (adjoint A) (adjoint B))).
    { apply Mmult_compat; [apply mat_equiv_refl|].
      intros i j _ _. apply adjoint_kron. }
    apply mat_equiv_trans
      with (kron n (Mmult m A (adjoint A)) (Mmult n B (adjoint B))).
    { intros i j _ _. now apply kron_mixed_product. }
    apply mat_equiv_trans with (kron n (identity m) (identity n));
      [now apply kron_compat | apply kron_identity].
Qed.

(** ** The matrices of the leaves *)

Ltac small_indices i j :=
  repeat (destruct i as [|i]; try lia);
  repeat (destruct j as [|j]; try lia).

Ltac entries :=
  unfold Mmult, adjoint, identity, rot_x, rot_z, cnot, entries2;
  cbn [Csum Nat.eqb Nat.ltb Nat.leb andb];
  apply C_eq; cbn [fst snd Cplus Cmult Cconj C0 C1].

Lemma unitary_rot_x (theta : R) : unitary 2 (rot_x theta).
Proof.
  pose proof (sin2_cos2 (theta / 2)) as H. unfold Rsqr in H.
  set (c := cos (theta / 2)) in *. set (s := sin (theta / 2)) in *.
  split; [|split].
  - intros i j [Hi|Hj]; unfold rot_x, entries2;
      destruct i as [|[|i]], j as [|[|j]]; try lia; reflexivity.
  - intros i j Hi Hj. small_indices i j; entries; fold c s; lra.
  - intros i j Hi Hj. small_indices i j; entries; fold c s; lra.
Qed.

Lemma unitary_rot_z (theta : R) : unitary 2 (rot_z theta).
Proof.
  pose proof (sin2_cos2 (theta / 2)) as H. unfold Rsqr in H.
  set (c := cos (theta / 2)) in *. set (s := sin (theta / 2)) in *.
  split; [|split].
  - intros i j [Hi|Hj]; unfold rot_z, entries2;
      destruct i as [|[|i]], j as [|[|j]]; try lia; reflexivity.
  - intros i j Hi Hj. small_indices i j; entries; fold c s; lra.
  - intros i j Hi Hj. small_indices i j; entries; fold c s; lra.
Qed.

Lemma unitary_cnot : unitary 4 cnot.
Proof.
  split; [|split].
  - intros i j [Hi|Hj]; unfold cnot;
      destruct i as [|[|[|[|i]]]], j as [|[|[|[|j]]]]; try lia; reflexivity.
  - intros i j Hi Hj. small_indices i j; entries; lra.
  - intros i j Hi Hj. small_indices i j; entries; lra.
Qed.

(** ** Evaluation of well formed gate trees *)

Lemma gate_induction (P : gate -> Prop) :
  P ZGate -> P XGate -> P CNOTGate -> P IdentityGate ->
  (forall gs, Forall P gs -> P (KroneckerGate gs)) ->
  (forall gs, Forall P gs -> P (ProductGate gs)) ->
  forall g, P g.
Proof.
  intros HZ HX HC HI HK HP.
  fix IH 1. intros [| | | |gs|gs]; try assumption.
  - apply HK. induction gs as [|g gs IHgs]; constructor; [apply IH | exact IHgs].
  - apply HP. induction gs as [|g gs IHgs]; constructor; [apply IH | exact IHgs].
Qed.

Lemma tensor_all_unitary (gs : list gate) :
  Forall (fun g => forall v, unitary (2 ^ qudits g) (evaluate g v)) gs ->
  forall v, unitary (2 ^ list_sum (map qudits gs)) (tensor_all evaluate gs v).
Proof.
  induction 1 as [|g gs Hg _ IH]; intros v.
  - apply (unitary_identity 1).
  - cbn [tensor_all map list_sum fold_right].
    change (fold_right Nat.add 0 (map qudits gs))
      with (list_sum (map qudits gs)).
    rewrite Nat.pow_add_r.
    apply unitary_kron; [now apply Nat.pow_nonzero | apply Hg | apply IH].
Qed.

Lemma product_all_unitary (d : nat) (gs : list gate) :
  Forall (fun g => forall v, unitary d (evaluate g v)) gs ->
  forall v, unitary d (product_all evaluate d gs v).
Proof.
  induction 1 as [|g gs Hg _ IH]; intros v.
  - apply unitary_identity.
  - cbn [product_all]. apply unitary_mult; [apply IH | apply Hg].
Qed.

(** Every well formed gate tree evaluates to a unitary matrix on its
    qubits, whatever the parameters. *)
Lemma evaluate_unitary (g : gate) :
  well_formed g = true ->
  forall v, unitary (2 ^ qudits g) (evaluate g v).
Proof.
  induction g as [| | | |gs IH|gs IH] using gate_induction; intros Hwf v.
  - apply unitary_rot_z.
  - apply unitary_rot_x.
  - apply unitary_cnot.
  - apply (unitary_identity 2).
  - cbn [evaluate qudits]. apply tensor_all_unitary.
    cbn [well_formed] in Hwf. rewrite forallb_forall in Hwf.
    rewrite Forall_forall in IH |- *.
    intros h Hh. apply IH; auto.
  - cbn [evaluate]. apply product_all_unitary.
    cbn [well_formed] in Hwf. apply andb_prop in Hwf. destruct Hwf as [Hw Hq].
    rewrite forallb_forall in Hw, Hq.
    rewrite Forall_forall in IH |- *.
    intros h Hh w.
    specialize (Hq h Hh). apply Nat.eqb_eq in Hq. rewrite <- Hq.
    apply IH; auto.
Qed.

(** ** The circuits of [make_MGC] are well formed *)

Lemma kron_chain_well_formed (k : nat) (g : gate) :
  well_formed g = true -> well_formed (kron_chain k g) = true.
Proof.
  intros Hg. induction k as [|k IH]; [exact Hg|].
  rewrite kron_chain_S. cbn [well_formed forallb]. rewrite IH. reflexivity.
Qed.

Lemma layers_well_formed (N : Z) (g1 g2 : gate) :
  (2 <= N)%Z ->
  make_layertype1 N = Ok g1 ->
  make_layertype2 N = Ok g2 ->
  well_formed g1 = true /\ well_formed g2 = true.
Proof.
  intros HN H1 H2.
  rewrite (make_layertype1_closed HN) in H1.
  rewrite make_layertype2_closed in H2.
  injection H1 as <-. injection H2 as <-. cbv zeta.
  destruct (Z.eqb (N mod 2) 0); cbn [well_formed forallb];
    rewrite !kron_chain_well_formed by reflexivity; split; reflexivity.
Qed.

Lemma product_spine_well_formed (g1 g2 : gate) (start count : nat) (c : gate) :
  well_formed c = true -> well_formed g1 = true -> well_formed g2 = true ->
  qudits g1 = qudits c -> qudits g2 = qudits c ->
  let circuit := fold_left (fun c l => ProductGate [c; pick_layer g1 g2 l])
                           (seq start count) c in
  well_formed circuit = true /\ qudits circuit = qudits c.
Proof.
  intros Hc H1 H2 Q1 Q2. cbv zeta.
  induction count as [|n [IHw IHq]]; [now split|].
  rewrite fold_left_seq_S. cbn [well_formed forallb qudits].
  rewrite IHw, IHq, Nat.eqb_refl.
  assert (Hp : well_formed (pick_layer g1 g2 (start + n)) = true /\
               qudits (pick_layer g1 g2 (start + n)) = qudits c).
  { unfold pick_layer. destruct (Nat.eqb ((start + n) mod 2) 0); now split. }
  destruct Hp as [-> ->]. rewrite Nat.eqb_refl. now split.
Qed.

Lemma make_MGC_well_formed (N : Z) :
  (1 <= N)%Z ->
  exists circuit,
    make_MGC N = Ok circuit /\
    well_formed circuit = true /\
    Z.of_nat (qudits circuit) = N.
Proof.
  intros HN. destruct (Z.eq_dec N 1) as [->|Hne].
  - exists IdentityGate. repeat split.
  - assert (H2 : (2 <= N)%Z) by lia.
    destruct (layers_measure H2) as (g1 & g2 & H1 & Hg2 & Q1 & Q2 & _).
    destruct (layers_well_formed H2 H1 Hg2) as [W1 W2].
    eexists. split; [exact (make_MGC_closed H2 H1 Hg2)|].
    destruct (@product_spine_well_formed g1 g2 1 (Z.to_nat N - 1) g2
                W2 W1 W2 ltac:(lia) eq_refl) as [Hw Hq].
    split; [exact Hw|]. rewrite Hq. exact Q2.
Qed.



(** * Further properties of the circuit builders *)

Lemma int_half_small (N : Z) : (N < 2)%Z -> Z.to_nat (int_half N) = 0.
Proof.
  intros HN. unfold int_half. destruct N as [|p|p].
  - reflexivity.
  - assert (p = 1%positive) by lia. subst p. reflexivity.
  - change (Z.neg p) with (- Z.pos p)%Z. rewrite Z.quot_opp_l by lia.
    pose proof (Z.quot_pos (Z.pos p) 2 ltac:(lia) ltac:(lia)). lia.
Qed.




(** ** Sizes of the ansatz

    A measure of gate trees that adds up over the two compositions and
    gives nothing for the identity is, on [make_MGC(N)], the measure of one
    primitive times N(N-1)/2. *)

Section AdditiveMeasure.

Variable mu : gate -> nat.
Hypothesis mu_kron : forall a b, mu (KroneckerGate [a; b]) = mu a + mu b.
Hypothesis mu_product : forall a b, mu (ProductGate [a; b]) = mu a + mu b.
Hypothesis mu_identity : mu IdentityGate = 0.

Lemma mu_kron_chain (k : nat) (g : gate) :
  mu (kron_chain k g) = mu g + k * mu make_matchgate.
Proof.
  induction k as [|k IH]; [cbn; lia|].
  rewrite kron_chain_S, mu_kron, IH. lia.
Qed.

Lemma mu_layers (N : Z) (g1 g2 : gate) :
  (2 <= N)%Z ->
  make_layertype1 N = Ok g1 ->
  make_layertype2 N = Ok g2 ->
  Z.of_nat (mu g1) = (N / 2 * Z.of_nat (mu make_matchgate))%Z /\
  Z.of_nat (mu g2) = ((N - 1) / 2 * Z.of_nat (mu make_matchgate))%Z.
Proof.
  intros HN H1 H2. destruct (half_facts HN) as (E & B & Hh).
  rewrite (make_layertype1_closed HN) in H1.
  rewrite make_layertype2_closed in H2.
  rewrite (int_half_nonneg (N := N)) in H2 by lia.
  rewrite (pred_half HN).
  injection H1 as <-. injection H2 as <-. cbv zeta.
  destruct (Z.eqb (N mod 2) 0);
    rewrite ?mu_kron, ?mu_kron_chain, ?mu_identity; split; nia.
Qed.

Lemma mu_product_spine (g1 g2 : gate) (start count : nat) (c : gate) :
  mu (fold_left (fun c l => ProductGate [c; pick_layer g1 g2 l])
                (seq start count) c)
  = mu c + list_sum (map (fun l => mu (pick_layer g1 g2 l)) (seq start count)).
Proof.
  induction count as [|n IH]; [cbn; lia|].
  rewrite fold_left_seq_S, seq_S, map_app, list_sum_app, mu_product, IH.
  cbn [map list_sum fold_right]. lia.
Qed.

Lemma mu_make_MGC (N : Z) :
  (1 <= N)%Z ->
  exists circuit,
    make_MGC N = Ok circuit /\
    (2 * Z.of_nat (mu circuit)
     = Z.of_nat (mu make_matchgate) * (N * (N - 1)))%Z.
Proof.
  intros HN. destruct (Z.eq_dec N 1) as [->|Hne].
  { exists IdentityGate. split; [reflexivity|]. rewrite mu_identity. lia. }
  assert (H2 : (2 <= N)%Z) by lia.
  destruct (layers_measure H2) as (g1 & g2 & H1 & Hg2 & _).
  destruct (mu_layers H2 H1 Hg2) as [M1 M2].
  eexists. split; [exact (make_MGC_closed H2 H1 Hg2)|].
  rewrite mu_product_spine.
  destruct (half_facts H2) as (E & B & Hh).
  rewrite (pred_half H2) in M2.
  assert (Hsum :
    mu g2
    + list_sum (map (fun l => mu (pick_layer g1 g2 l))
                    (seq 1 (Z.to_nat N - 1)))
    = list_sum (map (fun l => if Nat.eqb (l mod 2) 0 then mu g2 else mu g1)
                    (seq 0 (Z.to_nat N)))).
  { destruct (Z.to_nat N) as [|n] eqn:En; [lia|].
    replace (S n - 1) with n by lia. unfold list_sum.
    cbn [seq map fold_right]. change (Nat.eqb (0 mod 2) 0) with true.
    cbv iota. f_equal. f_equal. apply map_ext. intros l. unfold pick_layer.
    now destruct (Nat.eqb (l mod 2) 0). }
  rewrite Hsum. clear Hsum.
  set (q := Z.to_nat (N / 2)).
  assert (Hq : Z.of_nat q = (N / 2)%Z) by (unfold q; lia).
  set (m := Z.of_nat (mu make_matchgate)) in *.
  destruct (Z.eqb_spec (N mod 2) 0) as [H0|H0].
  - replace (Z.to_nat N) with (2 * q) by lia.
    rewrite alternating_sum. nia.
  - replace (Z.to_nat N) with (S (2 * q)) by lia.
    rewrite seq_S, map_app, list_sum_app, alternating_sum.
    cbn [map list_sum fold_right Nat.add].
    replace (2 * q) with (0 + q * 2) by lia. rewrite Nat.Div0.mod_add.
    cbn [Nat.modulo Nat.divmod Nat.eqb snd fst Nat.sub].
    nia.
Qed.

End AdditiveMeasure.

Lemma primitives_product (a b : gate) :
  primitives (ProductGate [a; b]) = primitives a + primitives b.
Proof.
  assert (E : gate_eqb (ProductGate [a; b]) make_matchgate = false).
  { cbn. destruct (gate_eqb a _); [|reflexivity].
    destruct (gate_eqb b _); reflexivity. }
  unfold primitives at 1. fold primitives. rewrite E.
  cbn [map list_sum fold_right]. lia.
Qed.



(** * Further properties of the synthesis loop *)

Lemma SFleb_total (x y : spec_float) :
  SFleb x x = true -> SFleb y y = true ->
  SFltb x y = false -> SFleb y x = true.
Proof.
  unfold SFltb, SFleb, SFcompare.
  destruct x as [[|]|[|]| |[|] mx ex], y as [[|]|[|]| |[|] my ey];
    try discriminate; try reflexivity;
    cmp_cases; cbn; intros; try discriminate; try reflexivity; lia.
Qed.

Lemma float_leb_total (x y : float) :
  (x <=? x)%float = true -> (y <=? y)%float = true ->
  (x <? y)%float = false -> (y <=? x)%float = true.
Proof. rewrite ltb_spec, !leb_spec. apply SFleb_total. Qed.

Section SynthesisOutcome.

Variables Matrix Params World : Type.
Variable MultiStart_Solver :
  Z -> gate -> Options Matrix -> World -> result (Matrix * Params) * World.
Variable matrix_distance_squared : Matrix -> Matrix -> result float.

Local Notation "'state'" := (loop_state Matrix Params).
Local Notation "'retry'" :=
  (retry_loop MultiStart_Solver matrix_distance_squared).
Local Notation "'synth'" :=
  (synthesize MultiStart_Solver matrix_distance_squared).

(** The tracked distance is the initial 1 or the distance of a recorded
    attempt, and it is below the distance of every recorded attempt that
    returned a number. *)
Lemma retry_loop_minimum (circ_struct : gate) (opts : Options Matrix)
      (target : Matrix) (n : nat) (e : env Matrix World) :
  let st := snd (fst (retry circ_struct opts target n
                            (initial_state Matrix Params) e)) in
  (dist st = 1%float \/
   exists a, In a (attempts st) /\ a_dist_new a = dist st) /\
  (forall a, In a (attempts st) ->
             (a_dist_new a <=? a_dist_new a)%float = true ->
             (dist st <=? a_dist_new a)%float = true).
Proof.
  cbv zeta.
  apply (@retry_loop_preserves Matrix Params World MultiStart_Solver
           matrix_distance_squared
           (fun st => (dist st <=? dist st)%float = true /\
                      (dist st = 1%float \/
                       exists a, In a (attempts st) /\
                                 a_dist_new a = dist st) /\
                      (forall a, In a (attempts st) ->
                                 (a_dist_new a <=? a_dist_new a)%float = true ->
                                 (dist st <=? a_dist_new a)%float = true))
           circ_struct opts target
           ltac:(intros st m v H; exact H)).
  - intros st m v d (Hrefl & Hatt & Hlow).
    destruct (best_below d Hrefl) as [Hle Hrefl'].
    unfold account. cbn [dist attempts].
    set (d' := if (d <? dist st)%float then d else dist st) in *.
    split; [exact Hrefl'|]. split.
    + destruct (d <? dist st)%float eqn:E.
      * right. eexists. split; [apply in_or_app; right; left; reflexivity|].
        reflexivity.
      * destruct Hatt as [H1|(a & Ha & Hd)]; [now left|].
        right. exists a. split; [apply in_or_app; now left | exact Hd].
    + intros a Ha Hnum. apply in_app_or in Ha. destruct Ha as [Ha|[<-|[]]].
      * apply (float_leb_trans Hle). now apply Hlow.
      * cbn [a_dist_new] in *. subst d'.
        destruct (d <? dist st)%float eqn:E; [exact Hnum|].
        apply float_leb_total; assumption.
  - split; [reflexivity|]. split; [now left|]. intros a [].
Qed.

(** A loop that completes without reaching the tolerance has used its
    whole budget. *)
Lemma retry_loop_exhausted (circ_struct : gate) (opts : Options Matrix)
      (target : Matrix) (n : nat) :
  forall (st : state) (e : env Matrix World),
    let r := retry circ_struct opts target n st e in
    fst (fst r) = Normal ->
    (dist (snd (fst r)) <? tolerance)%float = false ->
    List.length (attempts (snd (fst r))) = List.length (attempts st) + n /\
    solver_log (snd r)
    = solver_log e ++ repeat (circ_struct, opt_target opts) n.
Proof.
  induction n as [|n IH]; intros st e; cbv zeta.
  - cbn. intros _ _. split; [lia | now rewrite app_nil_r].
  - cbn [retry_loop]. unfold call_solver.
    destruct (MultiStart_Solver 24 circ_struct opts (ambient e))
      as [[[m v]|x] w]; [|discriminate].
    destruct (matrix_distance_squared m target) as [d|x]; [|discriminate].
    destruct (dist (account st m v d) <? tolerance)%float eqn:Etol.
    + cbn [fst snd]. congruence.
    + intros Hn Hd.
      destruct (IH (account st m v d)
                   {| ambient := w;
                      solver_log := solver_log e ++
                                    [(circ_struct, opt_target opts)] |}
                   Hn Hd) as [Hlen Hlog].
      split.
      * rewrite Hlen. unfold account. cbn [attempts].
        rewrite length_app. cbn. lia.
      * rewrite Hlog. cbn [solver_log repeat]. now rewrite <- app_assoc.
Qed.

End SynthesisOutcome.

Section SynthesisResult.

Variables Matrix Params World : Type.
Variable MultiStart_Solver :
  Z -> gate -> Options Matrix -> World -> result (Matrix * Params) * World.
Variable matrix_distance_squared : Matrix -> Matrix -> result float.

Local Notation "'state'" := (loop_state Matrix Params).
Local Notation "'retry'" :=
  (retry_loop MultiStart_Solver matrix_distance_squared).
Local Notation "'synth'" :=
  (synthesize MultiStart_Solver matrix_distance_squared).

(** What a successful synthesis call went through. *)
Lemma synthesize_inversion (N : Z) (target : Matrix) (e e' : env Matrix World)
      (s : synthesis Matrix Params) :
  synth N target e = (Ok s, e') ->
  make_MGC N = Ok (structure s) /\
  retry (structure s) {| opt_target := target |} target 5
        (initial_state Matrix Params) e = (Normal, final s, e') /\
  vec (final s) = Some (parameters s) /\
  reported s = dist (final s).
Proof.
  unfold synthesize.
  destruct (make_MGC N) as [circuit|x]; [|discriminate].
  destruct (retry circuit {| opt_target := target |} target 5
                  (initial_state Matrix Params) e) as [[c st] e''] eqn:Er.
  destruct c; [|discriminate].
  destruct (vec st) as [v|] eqn:Ev; [|discriminate].
  cbn [read_local]. intros H. injection H as <- <-. cbn. auto.
Qed.

(** Every recorded attempt carries the distance of its own matrix. *)
Lemma retry_loop_recorded (circ_struct : gate) (opts : Options Matrix)
      (target : Matrix) (n : nat) :
  forall (st : state) (e : env Matrix World),
    Forall (fun a => matrix_distance_squared (a_mat a) target
                     = Ok (a_dist_new a)) (attempts st) ->
    Forall (fun a => matrix_distance_squared (a_mat a) target
                     = Ok (a_dist_new a))
           (attempts (snd (fst (retry circ_struct opts target n st e)))).
Proof.
  induction n as [|n IH]; intros st e Hst; [exact Hst|].
  cbn [retry_loop]. unfold call_solver.
  destruct (MultiStart_Solver 24 circ_struct opts (ambient e))
    as [[[m v]|x] w]; [|exact Hst].
  destruct (matrix_distance_squared m target) as [d|x] eqn:Ed; [|exact Hst].
  assert (Hacc : Forall (fun a => matrix_distance_squared (a_mat a) target
                                  = Ok (a_dist_new a))
                        (attempts (account st m v d))).
  { unfold account. cbn [attempts]. apply Forall_app. split; [exact Hst|].
    constructor; [exact Ed | constructor]. }
  destruct (dist (account st m v d) <? tolerance)%float;
    [exact Hacc | now apply IH].
Qed.

(** When a synthesis call reports a distance below the tolerance, the
    parameters it hands over are those of its last attempt, and the
    reported distance is the distance of that attempt's matrix to the
    target. *)
Theorem converged_synthesis_emits_best
        (N : Z) (target : Matrix) (e e' : env Matrix World)
        (s : synthesis Matrix Params) :
  synth N target e = (Ok s, e') ->
  (reported s <? tolerance)%float = true ->
  exists earlier a,
    attempts (final s) = earlier ++ [a] /\
    parameters s = a_vec a /\
    mat (final s) = Some (a_mat a) /\
    matrix_distance_squared (a_mat a) target = Ok (reported s).
Proof.
  intros Hs Hconv.
  destruct (synthesize_inversion _ _ _ Hs) as (_ & Hr & Hv & Hrep).
  pose proof (@retry_loop_converged Matrix Params World MultiStart_Solver
                matrix_distance_squared (structure s)
                {| opt_target := target |} target 5
                (initial_state Matrix Params) e) as Hc.
  pose proof (@retry_loop_recorded (structure s) {| opt_target := target |}
                target 5 (initial_state Matrix Params) e
                ltac:(constructor)) as Hrec.
  cbv zeta in Hc. rewrite Hr in Hc, Hrec. cbn [fst snd] in Hc, Hrec.
  rewrite Hrep in Hconv.
  destruct (Hc eq_refl Hconv) as (earlier & a & Hatt & Hd & Hvec & Hmat).
  exists earlier, a. split; [exact Hatt|].
  split; [congruence|]. split; [exact Hmat|].
  rewrite Hatt in Hrec. apply Forall_app in Hrec. destruct Hrec as [_ Hlast].
  inversion Hlast as [|? ? Ha _]; subst. rewrite Ha, Hrep. now f_equal.
Qed.

(** The distance a synthesis call reports is the initial 1 or the distance
    of one of its attempts, and it is below the distance of every attempt
    that returned a number. *)
Theorem reported_distance_is_minimum
        (N : Z) (target : Matrix) (e e' : env Matrix World)
        (s : synthesis Matrix Params) :
  synth N target e = (Ok s, e') ->
  (reported s = 1%float \/
   exists a, In a (attempts (final s)) /\ a_dist_new a = reported s) /\
  (forall a, In a (attempts (final s)) ->
             (a_dist_new a <=? a_dist_new a)%float = true ->
             (reported s <=? a_dist_new a)%float = true).
Proof.
  intros Hs.
  destruct (synthesize_inversion _ _ _ Hs) as (_ & Hr & _ & Hrep).
  pose proof (@retry_loop_minimum Matrix Params World MultiStart_Solver
                matrix_distance_squared (structure s)
                {| opt_target := target |} target 5 e) as Hm.
  cbv zeta in Hm. rewrite Hr in Hm. cbn [fst snd] in Hm.
  rewrite Hrep. exact Hm.
Qed.

(** A synthesis call that returns a distance not below the tolerance has
    made exactly five attempts, each one a solver invocation on the same
    structure and target. *)
Theorem unconverged_synthesis_uses_budget
        (N : Z) (target : Matrix) (e e' : env Matrix World)
        (s : synthesis Matrix Params) :
  synth N target e = (Ok s, e') ->
  (reported s <? tolerance)%float = false ->
  List.length (attempts (final s)) = 5 /\
  solver_log e' = solver_log e ++ repeat (structure s, target) 5.
Proof.
  intros Hs Hnot.
  destruct (synthesize_inversion _ _ _ Hs) as (_ & Hr & _ & Hrep).
  pose proof (@retry_loop_exhausted Matrix Params World MultiStart_Solver
                matrix_distance_squared (structure s)
                {| opt_target := target |} target 5
                (initial_state Matrix Params) e) as Hx.
  cbv zeta in Hx. rewrite Hr in Hx. cbn [fst snd opt_target] in Hx.
  rewrite Hrep in Hnot. exact (Hx eq_refl Hnot).
Qed.

End SynthesisResult.

Lemma converged_synthesis_emits_best_witness :
  exists s e',
    synthesize (scripted_solver (script_of converging_script)) gap_distance
               3 unit_target (fresh_env 0) = (Ok s, e') /\
    (reported s <? tolerance)%float = true /\
    exists earlier a,
      attempts (final s) = earlier ++ [a] /\
      parameters s = a_vec a /\
      mat (final s) = Some (a_mat a) /\
      gap_distance (a_mat a) unit_target = Ok (reported s).
Proof.
  eexists. eexists.
  split; [vm_compute; reflexivity|].
  split; [vm_compute; reflexivity|].
  eapply (@converged_synthesis_emits_best rows (list float) nat
            (scripted_solver (script_of converging_script)) gap_distance
            3 unit_target (fresh_env 0));
    vm_compute; reflexivity.
Defined.

Lemma reported_distance_is_minimum_witness :
  exists s e',
    synthesize (scripted_solver (script_of stalling_script)) gap_distance
               3 unit_target (fresh_env 0) = (Ok s, e') /\
    (reported s = 1%float \/
     exists a, In a (attempts (final s)) /\ a_dist_new a = reported s) /\
    (forall a, In a (attempts (final s)) ->
               (a_dist_new a <=? a_dist_new a)%float = true ->
               (reported s <=? a_dist_new a)%float = true).
Proof.
  eexists. eexists.
  split; [vm_compute; reflexivity|].
  eapply (@reported_distance_is_minimum rows (list float) nat
            (scripted_solver (script_of stalling_script)) gap_distance
            3 unit_target (fresh_env 0));
    vm_compute; reflexivity.
Defined.

Lemma unconverged_synthesis_uses_budget_witness :
  exists s e',
    synthesize (scripted_solver (script_of stalling_script)) gap_distance
               3 unit_target (fresh_env 0) = (Ok s, e') /\
    (reported s <? tolerance)%float = false /\
    List.length (attempts (final s)) = 5 /\
    solver_log e' = solver_log (fresh_env 0) ++ repeat (structure s, unit_target) 5.
Proof.
  eexists. eexists.
  split; [vm_compute; reflexivity|].
  split; [vm_compute; reflexivity|].
  eapply (@unconverged_synthesis_uses_budget rows (list float) nat
            (scripted_solver (script_of stalling_script)) gap_distance
            3 unit_target (fresh_env 0));
    vm_compute; reflexivity.
Defined.

(** * The reference circuits *)

Lemma range_loop_append {A : Type} (count : Z) (body : nat -> list A -> list A)
      (f : nat -> list A) (c : list A) :
  (forall i c, body i c = c ++ f i) ->
  range_loop count body c = c ++ flat_map f (seq 0 (Z.to_nat count)).
Proof.
  intros Hb. unfold range_loop.
  generalize (seq 0 (Z.to_nat count)) as l. intros l. revert c.
  induction l as [|i l IH]; intros c; cbn [fold_left flat_map].
  - now rewrite app_nil_r.
  - rewrite IH, Hb. now rewrite app_assoc.
Qed.

Lemma length_flat_map_const {A B : Type} (f : B -> list A) (k : nat) (l : list B) :
  (forall b, In b l -> List.length (f b) = k) ->
  List.length (flat_map f l) = k * List.length l.
Proof.
  induction l as [|b l IH]; intros H; cbn [flat_map List.length]; [lia|].
  rewrite length_app, (H b) by now left.
  rewrite IH by (intros; apply H; now right). lia.
Qed.

Lemma flat_map_constant {A B : Type} (block : list A) (l l' : list B) :
  List.length l = List.length l' ->
  flat_map (fun _ => block) l = flat_map (fun _ => block) l'.
Proof.
  revert l'. induction l as [|b l IH]; intros [|b' l'] H;
    try discriminate; [reflexivity|].
  cbn [flat_map]. f_equal. apply IH. now injection H.
Qed.

Lemma filter_flat_map_length {A B : Type} (p : A -> bool) (f : B -> list A)
      (k : nat) (l : list B) :
  (forall b, In b l -> List.length (filter p (f b)) = k) ->
  List.length (filter p (flat_map f l)) = k * List.length l.
Proof.
  induction l as [|b l IH]; intros H; cbn [flat_map List.length]; [cbn; lia|].
  rewrite filter_app, length_app, (H b) by now left.
  rewrite IH by (intros; apply H; now right). lia.
Qed.

(** The gates of the XX and of the YY operator on the qubits [q] and
    [q + 1], and one time step of the XY circuit. *)
Lemma xx_loop (psiX : float) (N : Z) (c : QuantumCircuit) :
  range_loop (N - 1) (xx_operator psiX) c
  = c ++ flat_map (fun q => xx_operator psiX q []) (seq 0 (Z.to_nat (N - 1))).
Proof. now apply range_loop_append. Qed.

Lemma yy_loop (psiY : float) (N : Z) (c : QuantumCircuit) :
  range_loop (N - 1) (yy_operator psiY) c
  = c ++ flat_map (fun q => yy_operator psiY q []) (seq 0 (Z.to_nat (N - 1))).
Proof. now apply range_loop_append. Qed.

Lemma evolution_circuit_XY_one (Jx Jy delta_t : float) (N : Z) :
  evolution_circuit_XY 1 Jx Jy delta_t N
  = flat_map (fun q => xx_operator (-2 * Jx * delta_t / hbar) q [])
             (seq 0 (Z.to_nat (N - 1))) ++
    flat_map (fun q => yy_operator (-2 * Jy * delta_t / hbar) q [])
             (seq 0 (Z.to_nat (N - 1))).
Proof.
  unfold evolution_circuit_XY, range_loop at 1.
  change (Z.to_nat 1) with 1. cbn [seq fold_left].
  now rewrite xx_loop, yy_loop.
Qed.

Lemma evolution_circuit_XY_steps (num_time_steps : Z) (Jx Jy delta_t : float)
      (N : Z) :
  evolution_circuit_XY num_time_steps Jx Jy delta_t N
  = flat_map (fun _ : nat => evolution_circuit_XY 1 Jx Jy delta_t N)
             (seq 0 (Z.to_nat num_time_steps)).
Proof.
  unfold evolution_circuit_XY at 1.
  rewrite (range_loop_append num_time_steps _
             (fun _ : nat => evolution_circuit_XY 1 Jx Jy delta_t N));
    [reflexivity|].
  intros i c. rewrite xx_loop, yy_loop, evolution_circuit_XY_one.
  now rewrite app_assoc.
Qed.

Lemma xx_operator_gates (psiX : float) (q : nat) :
  xx_operator psiX q []
  = [qk.h q; qk.h (q + 1); qk.cx q (q + 1); qk.rz psiX (q + 1);
     qk.cx q (q + 1); qk.h q; qk.h (q + 1)].
Proof. reflexivity. Qed.

Lemma yy_operator_gates (psiY : float) (q : nat) :
  yy_operator psiY q []
  = [qk.rx (- np_pi / 2) q; qk.rx (- np_pi / 2) (q + 1); qk.cx q (q + 1);
     qk.rz psiY (q + 1); qk.cx q (q + 1);
     qk.rx (np_pi / 2) q; qk.rx (np_pi / 2) (q + 1)]%float.
Proof. reflexivity. Qed.

(** [len] of the XY reference circuit: 14 instructions per time step and
    pair of neighbouring qubits; the circuit is empty when there is no time
    step or fewer than two qubits. *)
Theorem evolution_circuit_XY_length (num_time_steps : Z) (Jx Jy delta_t : float)
        (N : Z) :
  List.length (evolution_circuit_XY num_time_steps Jx Jy delta_t N)
  = 14 * Z.to_nat num_time_steps * Z.to_nat (N - 1).
Proof.
  rewrite evolution_circuit_XY_steps.
  rewrite (@length_flat_map_const _ _ _ (14 * Z.to_nat (N - 1)) _).
  - rewrite length_seq. lia.
  - intros _ _. rewrite evolution_circuit_XY_one, length_app.
    rewrite !(@length_flat_map_const _ _ _ 7 _) by reflexivity.
    rewrite length_seq. lia.
Qed.

(** Every instruction of the XY reference circuit acts on qubits of the
    register (indices below [N]), and every controlled-not acts on a qubit
    and its right neighbour. *)
Theorem evolution_circuit_XY_in_register (num_time_steps : Z)
        (Jx Jy delta_t : float) (N : Z) :
  Forall (fun i =>
            Forall (fun q => (Z.of_nat q < N)%Z) (qk.qubits i) /\
            (forall c t, i = qk.cx c t -> t = c + 1))
         (evolution_circuit_XY num_time_steps Jx Jy delta_t N).
Proof.
  rewrite evolution_circuit_XY_steps.
  apply Forall_flat_map. apply Forall_forall. intros _ _.
  rewrite evolution_circuit_XY_one. apply Forall_app.
  split; apply Forall_flat_map; apply Forall_forall; intros q Hq;
    apply in_seq in Hq;
    rewrite ?xx_operator_gates, ?yy_operator_gates;
    repeat constructor; cbn [qk.qubits];
    repeat constructor; try lia; try discriminate;
    intros c t E; injection E as <- <-; reflexivity.
Qed.

(** The circuit of [a + b] time steps is the circuit of [a] time steps
    followed by the circuit of [b] time steps. *)
Theorem evolution_circuit_XY_additive (a b : Z) (Jx Jy delta_t : float) (N : Z) :
  (0 <= a)%Z -> (0 <= b)%Z ->
  evolution_circuit_XY (a + b) Jx Jy delta_t N
  = evolution_circuit_XY a Jx Jy delta_t N ++
    evolution_circuit_XY b Jx Jy delta_t N.
Proof.
  intros Ha Hb.
  rewrite (evolution_circuit_XY_steps (a + b)), (evolution_circuit_XY_steps a),
    (evolution_circuit_XY_steps b).
  rewrite Z2Nat.inj_add by assumption.
  rewrite seq_app, flat_map_app. f_equal.
  apply flat_map_constant. now rewrite !length_seq.
Qed.

Lemma evolution_circuit_XY_additive_witness :
  (0 <= 2)%Z /\ (0 <= 1)%Z /\
  evolution_circuit_XY (2 + 1) (-1) (-1) 0.25 3
  = evolution_circuit_XY 2 (-1) (-1) 0.25 3 ++
    evolution_circuit_XY 1 (-1) (-1) 0.25 3.
Proof.
  split; [lia|]. split; [lia|].
  apply evolution_circuit_XY_additive; lia.
Defined.

Lemma evolution_circuit_XY_cx_count (num_time_steps : Z) (Jx Jy delta_t : float)
      (N : Z) :
  List.length (filter qk.is_cx
                      (evolution_circuit_XY num_time_steps Jx Jy delta_t N))
  = 4 * Z.to_nat num_time_steps * Z.to_nat (N - 1).
Proof.
  rewrite evolution_circuit_XY_steps.
  rewrite (@filter_flat_map_length _ _ _ _ (4 * Z.to_nat (N - 1)) _).
  - rewrite length_seq. lia.
  - intros _ _. rewrite evolution_circuit_XY_one, filter_app, length_app.
    rewrite !(@filter_flat_map_length _ _ _ _ 2 _) by reflexivity.
    rewrite length_seq. lia.
Qed.



Lemma flat_map_singleton {A B : Type} (f : B -> A) (l : list B) :
  flat_map (fun b => [f b]) l = map f l.
Proof. induction l as [|b l IH]; [reflexivity|]. cbn. now rewrite IH. Qed.

Lemma circuits_closed (num_steps : Z) (Jx Jy delta_t : float) (N : Z) :
  circuits num_steps Jx Jy delta_t N
  = map (fun i => evolution_circuit_XY (Z.of_nat i) Jx Jy delta_t N)
        (seq 0 (Z.to_nat (num_steps + 1))).
Proof.
  unfold circuits.
  rewrite (range_loop_append (num_steps + 1) _
             (fun i => [evolution_circuit_XY (Z.of_nat i) Jx Jy delta_t N]))
    by reflexivity.
  cbn [app]. apply flat_map_singleton.
Qed.

(** [circuits] holds one reference circuit per time step from 0 to
    [num_steps]; the circuit of time step [t] has 14 t (N - 1)
    instructions, so the first one is empty and they grow with [t]. *)
Theorem circuits_grow (num_steps : Z) (Jx Jy delta_t : float) (N : Z) :
  List.length (circuits num_steps Jx Jy delta_t N) = Z.to_nat (num_steps + 1) /\
  forall t c,
    nth_error (circuits num_steps Jx Jy delta_t N) t = Some c ->
    c = evolution_circuit_XY (Z.of_nat t) Jx Jy delta_t N /\
    List.length c = 14 * t * Z.to_nat (N - 1).
Proof.
  rewrite circuits_closed. split; [now rewrite length_map, length_seq|].
  intros t c Hn. rewrite nth_error_map in Hn.
  destruct (nth_error (seq 0 (Z.to_nat (num_steps + 1))) t) as [t'|] eqn:Et;
    [|discriminate].
  assert (t' = t).
  { pose proof (nth_error_lt _ _ Et) as Hlt. rewrite length_seq in Hlt.
    rewrite nth_error_nth' with (d := 0) in Et by now rewrite length_seq.
    rewrite seq_nth in Et by exact Hlt. cbn in Et. congruence. }
  subst t'. cbn in Hn. injection Hn as <-. split; [reflexivity|].
  rewrite evolution_circuit_XY_length. now rewrite Nat2Z.id.
Qed.

Section TransverseFieldFacts.

Variable np_cos : float -> float.

Lemma tfim_step_gates (psiX hz freq delta_t : float) (N : Z) (step : nat)
      (c : QuantumCircuit) :
  tfim_step np_cos psiX hz freq delta_t N step c
  = c ++ (flat_map (fun q => xx_operator psiX q [])
                   (seq 0 (Z.to_nat (N - 1))) ++
          flat_map (fun q => [qk.rz (tfim_psiZ np_cos hz freq delta_t step) q])
                   (seq 0 (Z.to_nat N))).
Proof.
  unfold tfim_step. rewrite xx_loop.
  rewrite (range_loop_append N _
             (fun q => [qk.rz (tfim_psiZ np_cos hz freq delta_t step) q]))
    by reflexivity.
  now rewrite app_assoc.
Qed.

Lemma evolution_circuit_TFIM_steps (num_time_steps : Z)
      (Jx hz freq delta_t : float) (N : Z) :
  evolution_circuit_TFIM np_cos num_time_steps Jx hz freq delta_t N
  = flat_map (fun step =>
                tfim_step np_cos (-2 * Jx * delta_t / hbar) hz freq delta_t
                          N step [])
             (seq 0 (Z.to_nat num_time_steps)).
Proof.
  unfold evolution_circuit_TFIM.
  rewrite (range_loop_append num_time_steps _
             (fun step =>
                tfim_step np_cos (-2 * Jx * delta_t / hbar) hz freq delta_t
                          N step [])); [reflexivity|].
  intros i c. now rewrite !tfim_step_gates.
Qed.


(** Every instruction of the transverse-field reference circuit acts on
    qubits of the register, and every controlled-not on a qubit and its
    right neighbour. *)
Theorem evolution_circuit_TFIM_in_register (num_time_steps : Z)
        (Jx hz freq delta_t : float) (N : Z) :
  Forall (fun i =>
            Forall (fun q => (Z.of_nat q < N)%Z) (qk.qubits i) /\
            (forall c t, i = qk.cx c t -> t = c + 1))
         (evolution_circuit_TFIM np_cos num_time_steps Jx hz freq delta_t N).
Proof.
  rewrite evolution_circuit_TFIM_steps.
  apply Forall_flat_map. apply Forall_forall. intros step _.
  rewrite tfim_step_gates. cbn [app]. apply Forall_app.
  split; apply Forall_flat_map; apply Forall_forall; intros q Hq;
    apply in_seq in Hq;
    rewrite ?xx_operator_gates;
    repeat constructor; cbn [qk.qubits];
    repeat constructor; try lia; try discriminate;
    intros c t E; injection E as <- <-; reflexivity.
Qed.

(** The circuit of [a] time steps is the beginning of the circuit of
    [a + b] time steps. *)
Theorem evolution_circuit_TFIM_prefix (a b : Z) (Jx hz freq delta_t : float)
        (N : Z) :
  (0 <= a)%Z -> (0 <= b)%Z ->
  exists later,
    evolution_circuit_TFIM np_cos (a + b) Jx hz freq delta_t N
    = evolution_circuit_TFIM np_cos a Jx hz freq delta_t N ++ later /\
    List.length later = Z.to_nat b * (7 * Z.to_nat (N - 1) + Z.to_nat N).
Proof.
  intros Ha Hb. rewrite !evolution_circuit_TFIM_steps.
  rewrite Z2Nat.inj_add by assumption.
  rewrite seq_app, flat_map_app. eexists. split; [reflexivity|].
  rewrite (@length_flat_map_const _ _ _
             (7 * Z.to_nat (N - 1) + Z.to_nat N) _).
  - rewrite length_seq. lia.
  - intros step _. rewrite tfim_step_gates. cbn [app]. rewrite length_app.
    rewrite (@length_flat_map_const _ _ _ 7 _) by reflexivity.
    rewrite (@length_flat_map_const _ _ _ 1 _) by reflexivity.
    rewrite !length_seq. lia.
Qed.

End TransverseFieldFacts.

Lemma evolution_circuit_TFIM_prefix_witness :
  (0 <= 1)%Z /\ (0 <= 2)%Z /\
  exists later,
    evolution_circuit_TFIM (fun x => x) (1 + 2) 1 2 0.5 3 3
    = evolution_circuit_TFIM (fun x => x) 1 1 2 0.5 3 3 ++ later /\
    List.length later = Z.to_nat 2 * (7 * Z.to_nat (3 - 1) + Z.to_nat 3).
Proof.
  split; [lia|]. split; [lia|].
  apply evolution_circuit_TFIM_prefix; lia.
Defined.

(** * The magnetization functions *)

Lemma spins_digits (chars : list ascii) :
  forallb is_digit chars = true ->
  exists spin_int,
    spins chars = Value spin_int /\ List.length spin_int = List.length chars.
Proof.
  induction chars as [|s rest IH]; intros H; [now exists []|].
  cbn [forallb] in H. apply andb_prop in H. destruct H as [Hs Hrest].
  destruct (IH Hrest) as (l & Hl & Hlen).
  unfold is_digit in Hs. cbn [spins].
  destruct (float_of_char s) as [f|e]; [|discriminate].
  cbn [and_then]. rewrite Hl. cbn [and_then].
  eexists. split; [reflexivity|]. cbn. now rewrite Hlen.
Qed.

Lemma spins_not_digits (chars : list ascii) :
  forallb is_digit chars = false -> spins chars = Error ValueError.
Proof.
  induction chars as [|s rest IH]; intros H; [discriminate|].
  cbn [forallb] in H. cbn [spins]. unfold is_digit in H.
  destruct (float_of_char s) as [f|e] eqn:Ef.
  - cbn [and_then]. cbn [andb] in H. rewrite (IH H). reflexivity.
  - cbn [and_then]. f_equal.
    destruct s as [[|] [|] [|] [|] [|] [|] [|] [|]]; cbn in Ef;
      congruence.
Qed.

Lemma stagger_length (start : nat) (spin_int : list float) :
  List.length (stagger start spin_int) = List.length spin_int.
Proof.
  revert start. induction spin_int as [|s rest IH]; intros start;
    [reflexivity|]. cbn. now rewrite IH.
Qed.

Lemma mean_defined (spin_int : list float) :
  spin_int <> [] -> exists m, mean spin_int = Value m.
Proof. destruct spin_int; [congruence|]. intros _. eexists. reflexivity. Qed.

Lemma forallb_rev {A : Type} (p : A -> bool) (l : list A) :
  forallb p (rev l) = forallb p l.
Proof.
  induction l as [|a l IH]; [reflexivity|].
  cbn [rev forallb]. rewrite forallb_app, IH. cbn. 
  destruct (p a), (forallb p l); reflexivity.
Qed.

Lemma float_of_int_error (z : Z) (e : builtin_error) :
  float_of_int z = Error e -> e = OverflowError.
Proof.
  unfold float_of_int.
  destruct (binary_normalize prec emax z 0 false); congruence.
Qed.

(** What a term of either function does with a key and its count: a
    character that is no digit raises [ValueError], the empty key raises
    [ZeroDivisionError], and a count beyond the floats raises
    [OverflowError], in this order. *)
Lemma term_outcome (prepare : list ascii -> list ascii)
      (weigh : list float -> list float) (spin_str : string) (count : Z) :
  (forall l, forallb is_digit (prepare l) = forallb is_digit l) ->
  (forall l, List.length (prepare l) = List.length l) ->
  (forall l, List.length (weigh l) = List.length l) ->
  let term :=
    and_then (spins (prepare (list_ascii_of_string spin_str))) (fun spin_int =>
    and_then (mean (weigh spin_int)) (fun m =>
    and_then (float_of_int count) (fun c => Value (m * c)%float))) in
  if negb (forallb is_digit (list_ascii_of_string spin_str))
  then term = Error ValueError
  else if negb (digits_only spin_str)
       then term = Error ZeroDivisionError
       else if negb (convertible count)
            then term = Error OverflowError
            else exists v, term = Value v.
Proof.
  intros Hp Hlp Hlw. cbv zeta. unfold digits_only, convertible.
  remember (list_ascii_of_string spin_str) as chars eqn:Echars.
  destruct (forallb is_digit chars) eqn:Hd; cbn [negb].
  - assert (Hd' : forallb is_digit (prepare chars) = true) by now rewrite Hp.
    destruct (spins_digits _ Hd') as (l & Hl & Hlen).
    rewrite Hl. cbn [and_then]. rewrite Hlp in Hlen.
    destruct chars as [|c0 chars']; cbv beta iota.
    + cbn [negb]. destruct l; [|discriminate].
      assert (Hw : weigh [] = []).
      { destruct (weigh []) eqn:Ew; [reflexivity|].
        pose proof (Hlw []) as H0. rewrite Ew in H0. discriminate. }
      rewrite Hw. reflexivity.
    + rewrite Hd. cbn [negb].
      destruct (@mean_defined (weigh l)) as (m & Hm).
      { intros E. pose proof (Hlw l) as H0. rewrite E, Hlen in H0.
        discriminate. }
      rewrite Hm. cbn [and_then].
      destruct (float_of_int count) as [c|e] eqn:Ec'; cbn [and_then negb].
      * eexists. reflexivity.
      * now rewrite (float_of_int_error _ Ec').
  - assert (Hd' : forallb is_digit (prepare chars) = false) by now rewrite Hp.
    now rewrite (spins_not_digits _ Hd').
Qed.

Lemma staggered_term_outcome (spin_str : string) (count : Z) :
  if valid_item (spin_str, count)
  then exists v, staggered_term spin_str count = Value v
  else staggered_term spin_str count = Error (item_error (spin_str, count)).
Proof.
  pose proof (@term_outcome (@rev ascii) (stagger 0) spin_str count
                (forallb_rev is_digit) (@length_rev ascii)
                (stagger_length 0)) as H.
  cbv zeta in H. unfold valid_item, item_error. cbn [fst snd].
  change (and_then (spins (rev (list_ascii_of_string spin_str))) _)
    with (staggered_term spin_str count) in H.
  destruct (forallb is_digit (list_ascii_of_string spin_str)) eqn:Hd;
    cbn [negb] in *.
  - destruct (digits_only spin_str); cbn [negb andb] in *; [|exact H].
    destruct (convertible count); cbn [negb] in *; exact H.
  - assert (Hn : digits_only spin_str = false).
    { unfold digits_only.
      destruct (list_ascii_of_string spin_str); [reflexivity | exact Hd]. }
    rewrite Hn. exact H.
Qed.

Lemma average_term_outcome (spin_str : string) (count : Z) :
  if valid_item (spin_str, count)
  then exists v, average_term spin_str count = Value v
  else average_term spin_str count = Error (item_error (spin_str, count)).
Proof.
  pose proof (@term_outcome (fun l => l) (fun l => l) spin_str count
                (fun _ => eq_refl) (fun _ => eq_refl) (fun _ => eq_refl)) as H.
  cbv zeta in H. unfold valid_item, item_error. cbn [fst snd].
  change (and_then (spins (list_ascii_of_string spin_str)) _)
    with (average_term spin_str count) in H.
  destruct (forallb is_digit (list_ascii_of_string spin_str)) eqn:Hd;
    cbn [negb] in *.
  - destruct (digits_only spin_str); cbn [negb andb] in *; [|exact H].
    destruct (convertible count); cbn [negb] in *; exact H.
  - assert (Hn : digits_only spin_str = false).
    { unfold digits_only.
      destruct (list_ascii_of_string spin_str); [reflexivity | exact Hd]. }
    rewrite Hn. exact H.
Qed.

Section SumOfTerms.

Variable term : string -> Z -> computed float.
Hypothesis term_outcome_valid :
  forall spin_str count,
    if valid_item (spin_str, count)
    then exists v, term spin_str count = Value v
    else term spin_str count = Error (item_error (spin_str, count)).

(** The loop over valid items returns, with a float as soon as there is an
    item. *)
Lemma sum_terms_valid (items : list (string * Z)) :
  forallb valid_item items = true ->
  forall acc,
  exists acc',
    sum_terms term items acc = Value acc' /\
    (acc' = None <-> acc = None /\ items = []).
Proof.
  induction items as [|[s c] rest IH]; intros Hv acc.
  - exists acc. split; [reflexivity|]. tauto.
  - cbn [forallb] in Hv. apply andb_prop in Hv. destruct Hv as [Hi Hrest].
    pose proof (term_outcome_valid s c) as Ht. rewrite Hi in Ht.
    destruct Ht as (v & Hv). cbn [sum_terms]. rewrite Hv. cbn [and_then].
    destruct (IH Hrest (accumulate acc v)) as (acc' & Hs & Hnone).
    exists acc'. split; [exact Hs|]. split.
    + intros E. apply Hnone in E. destruct E as [E _]. discriminate.
    + intros [_ E]. discriminate.
Qed.

(** The loop raises the error of the first item that is not valid. *)
Lemma sum_terms_first_error (good rest : list (string * Z))
      (item : string * Z) (acc : option float) :
  forallb valid_item good = true ->
  valid_item item = false ->
  sum_terms term (good ++ item :: rest) acc = Error (item_error item).
Proof.
  revert acc. induction good as [|[s c] good IH]; intros acc Hg Hi.
  - destruct item as [s c]. cbn [app sum_terms].
    pose proof (term_outcome_valid s c) as Ht. rewrite Hi in Ht.
    now rewrite Ht.
  - cbn [forallb] in Hg. apply andb_prop in Hg. destruct Hg as [H1 Hg].
    pose proof (term_outcome_valid s c) as Ht. rewrite H1 in Ht.
    destruct Ht as (v & Hv). cbn [app sum_terms]. rewrite Hv. cbn [and_then].
    now apply IH.
Qed.

Lemma first_invalid (items : list (string * Z)) :
  forallb valid_item items = false ->
  exists good item rest,
    items = good ++ item :: rest /\
    forallb valid_item good = true /\ valid_item item = false.
Proof.
  induction items as [|i items IH]; intros H; [discriminate|].
  cbn [forallb] in H. destruct (valid_item i) eqn:Hi.
  - destruct (IH H) as (good & item & rest & -> & Hg & Hitem).
    exists (i :: good), item, rest. cbn [forallb]. rewrite Hi. auto.
  - exists [], i, items. auto.
Qed.

(** The function built on [term] returns a number exactly when every item
    is valid, [shots] is not zero and, unless the dictionary is empty,
    [shots] converts to a float. *)
Lemma magnetization_returns (result : list (string * Z)) (shots : Z) :
  (exists v, and_then (sum_terms term result None)
                      (fun acc => divide_by_shots acc shots) = Value v)
  <-> forallb valid_item result = true /\ shots <> 0%Z /\
      (result = [] \/ convertible shots = true).
Proof.
  split.
  - intros (v & Hv).
    destruct (forallb valid_item result) eqn:Hall.
    + destruct (@sum_terms_valid result Hall None) as (acc & Hs & Hnone).
      rewrite Hs in Hv. cbn [and_then] in Hv.
      split; [reflexivity|].
      destruct acc as [a|]; cbn [divide_by_shots] in Hv.
      * unfold convertible.
        destruct (float_of_int shots) as [f|e]; [|discriminate].
        cbn [and_then] in Hv.
        destruct (Z.eqb_spec shots 0); [discriminate|]. auto.
      * destruct (Z.eqb_spec shots 0); [discriminate|].
        split; [assumption|]. left. now apply Hnone.
    + destruct (@first_invalid result Hall) as (good & item & rest & -> & Hg & Hi).
      rewrite (@sum_terms_first_error good rest item None Hg Hi) in Hv. discriminate.
  - intros (Hall & Hs & Hc).
    destruct (@sum_terms_valid result Hall None) as (acc & Hsum & Hnone).
    rewrite Hsum. cbn [and_then].
    destruct acc as [a|]; cbn [divide_by_shots].
    + destruct Hc as [->|Hc].
      * cbn in Hsum. discriminate.
      * unfold convertible in Hc.
        destruct (float_of_int shots) as [f|e]; [|discriminate].
        cbn [and_then]. destruct (Z.eqb_spec shots 0); [contradiction|].
        eexists. reflexivity.
    + destruct (Z.eqb_spec shots 0); [contradiction|]. eexists. reflexivity.
Qed.

(** Without shots the function built on [term] raises
    [ZeroDivisionError] on valid items, and the empty dictionary gives a
    zero for any other number of shots. *)
Lemma magnetization_edges (result : list (string * Z)) (shots : Z) :
  (forallb valid_item result = true ->
   and_then (sum_terms term result None)
            (fun acc => divide_by_shots acc 0) = Error ZeroDivisionError) /\
  (shots <> 0%Z ->
   exists z,
     and_then (sum_terms term [] None)
              (fun acc => divide_by_shots acc shots) = Value z /\
     (z =? 0)%float = true).
Proof.
  split.
  - intros Hall.
    destruct (@sum_terms_valid result Hall None) as (acc & -> & _).
    cbn [and_then]. destruct acc; reflexivity.
  - intros Hs. cbn [sum_terms and_then divide_by_shots].
    destruct (Z.eqb_spec shots 0); [contradiction|].
    eexists. split; [reflexivity|]. destruct (Z.ltb shots 0); reflexivity.
Qed.

End SumOfTerms.

(** [staggered_magnetization] returns a number exactly when every key is a
    non-empty string of decimal digits (it does not ask for bits), every
    count converts to a float, [shots] is not zero and, unless the
    dictionary is empty, [shots] converts to a float; otherwise it
    raises. *)
Theorem staggered_magnetization_returns (result : list (string * Z)) (shots : Z) :
  (exists v, staggered_magnetization result shots = Value v)
  <-> forallb valid_item result = true /\ shots <> 0%Z /\
      (result = [] \/ convertible shots = true).
Proof.
  exact (@magnetization_returns staggered_term staggered_term_outcome
                                result shots).
Qed.

(** [average_magnetization] returns a number on exactly the same
    conditions. *)
Theorem average_magnetization_returns (result : list (string * Z)) (shots : Z) :
  (exists v, average_magnetization result shots = Value v)
  <-> forallb valid_item result = true /\ shots <> 0%Z /\
      (result = [] \/ convertible shots = true).
Proof.
  exact (@magnetization_returns average_term average_term_outcome
                                result shots).
Qed.

(** Both functions raise the error of the first item that is not valid,
    whatever follows it and whatever [shots] is: [ValueError] for a key with
    a character that is no digit, [ZeroDivisionError] for the empty key,
    [OverflowError] for a count beyond the floats. *)
Theorem magnetization_first_error (good rest : list (string * Z))
        (item : string * Z) (shots : Z) :
  forallb valid_item good = true ->
  valid_item item = false ->
  staggered_magnetization (good ++ item :: rest) shots
  = Error (item_error item) /\
  average_magnetization (good ++ item :: rest) shots
  = Error (item_error item).
Proof.
  intros Hg Hi. unfold staggered_magnetization, average_magnetization.
  rewrite (@sum_terms_first_error staggered_term staggered_term_outcome
             good rest item None Hg Hi).
  rewrite (@sum_terms_first_error average_term average_term_outcome
             good rest item None Hg Hi).
  split; reflexivity.
Qed.

Lemma magnetization_first_error_witness :
  forallb valid_item [("010"%string, 5%Z)] = true /\
  valid_item ("0 1"%string, 3%Z) = false /\
  staggered_magnetization
    ([("010"%string, 5%Z)] ++ ("0 1"%string, 3%Z) :: [(EmptyString, 1%Z)]) 0
  = Error ValueError /\
  average_magnetization
    ([("010"%string, 5%Z)] ++ ("0 1"%string, 3%Z) :: [(EmptyString, 1%Z)]) 0
  = Error ValueError.
Proof.
  split; [reflexivity|]. split; [reflexivity|].
  apply (@magnetization_first_error [("010"%string, 5%Z)]
           [(EmptyString, 1%Z)] ("0 1"%string, 3%Z) 0);
    reflexivity.
Defined.

(** With [shots = 0] both functions raise [ZeroDivisionError] on every
    dictionary of valid items, the empty one included; with the empty
    dictionary and any other [shots] both return a zero. *)
Theorem magnetization_without_shots (result : list (string * Z)) (shots : Z) :
  (forallb valid_item result = true ->
   staggered_magnetization result 0 = Error ZeroDivisionError /\
   average_magnetization result 0 = Error ZeroDivisionError) /\
  (shots <> 0%Z ->
   exists z,
     staggered_magnetization [] shots = Value z /\
     average_magnetization [] shots = Value z /\
     (z =? 0)%float = true).
Proof.
  split.
  - intros Hall. split.
    + exact (proj1 (@magnetization_edges staggered_term staggered_term_outcome
                                         result 0) Hall).
    + exact (proj1 (@magnetization_edges average_term average_term_outcome
                                         result 0) Hall).
  - intros Hs.
    destruct (proj2 (@magnetization_edges staggered_term staggered_term_outcome
                                          [] shots) Hs)
      as (z & Hz & Hzero).
    exists z. split; [exact Hz|]. split; [exact Hz | exact Hzero].
Qed.

(** The Neel pattern measured on three qubits, and a mixture of the two
    staggered patterns. *)
Example staggered_magnetization_neel :
  staggered_magnetization [("010"%string, 8192%Z)] 8192 = Value 1%float /\
  staggered_magnetization [("010"%string, 4096%Z); ("101"%string, 4096%Z)] 8192
  = Value 0%float.
Proof. split; reflexivity. Qed.

(** The distance a synthesis call reports is a number between its attempts
    and 1: it is never NaN and never above 1, also when attempts return
    NaN or distances above 1. *)
Theorem reported_distance_is_a_number
        (Matrix Params World : Type)
        (solver : Z -> gate -> Options Matrix -> World ->
                  result (Matrix * Params) * World)
        (distance : Matrix -> Matrix -> result float)
        (N : Z) (target : Matrix) (e e' : env Matrix World)
        (s : synthesis Matrix Params) :
  synthesize solver distance N target e = (Ok s, e') ->
  (reported s <=? reported s)%float = true /\
  (reported s <=? 1)%float = true.
Proof.
  intros Hs.
  destruct (synthesize_inversion _ _ _ _ _ Hs) as (_ & Hr & _ & Hrep).
  pose proof (@retry_loop_tracked Matrix Params World solver distance
                (structure s) {| opt_target := target |} target 5
                (initial_state Matrix Params) e
                (tracked_initial Matrix Params)) as (H1 & H2 & _).
  rewrite Hr in H1, H2. cbn [fst snd] in H1, H2.
  rewrite Hrep. now split.
Qed.

Lemma reported_distance_is_a_number_witness :
  exists s e',
    synthesize (scripted_solver (script_of undefined_script)) gap_distance
               3 unit_target (fresh_env 0) = (Ok s, e') /\
    List.length (attempts (final s)) = 5 /\
    (reported s <=? reported s)%float = true /\
    (reported s <=? 1)%float = true.
Proof.
  eexists. eexists.
  split; [vm_compute; reflexivity|].
  split; [reflexivity|].
  eapply (@reported_distance_is_a_number rows (list float) nat
            (scripted_solver (script_of undefined_script)) gap_distance
            3 unit_target (fresh_env 0));
    vm_compute; reflexivity.
Defined.
